(** * A shallow embedding of the media-stream relay of [src/index.js]

    The development follows the source file top-down: JavaScript strings and
    the string built-ins the code calls, the values produced by [JSON.parse],
    the process-wide variables and the session registry, the closures of one
    [/media-stream] connection and its six event handlers, and finally the
    post-call extraction functions.  Console output is write-only in the
    source and is left out of the model. *)

From Stdlib Require Import ZArith List Ascii String Lia.
From stdpp Require Import base option list gmap pretty.

Local Open Scope Z_scope.

(** ** JavaScript strings

    A JavaScript string is a sequence of UTF-16 code units.  The handlers
    only concatenate, split, trim and search strings, so a string is the list
    of its code units. *)

Abbreviation jsstring := (list Z).

(** A literal of the source made of ASCII characters only. *)
Definition lit (s : string) : jsstring :=
  List.map (fun a => Z.of_N (N_of_ascii a)) (list_ascii_of_string s).

(** The line feed, written ["\n"] in the source. *)
Definition LF : Z := 10.

(** [String.prototype.startsWith], used to define [includes]. *)
Fixpoint startsWith (needle s : jsstring) : bool :=
  match needle, s with
  | [], _ => true
  | _ :: _, [] => false
  | a :: needle', b :: s' => (a =? b) && startsWith needle' s'
  end.

(** [String.prototype.includes]: [needle] occurs somewhere in [s]. *)
Fixpoint includes (needle s : jsstring) : bool :=
  startsWith needle s ||
  match s with
  | [] => false
  | _ :: s' => includes needle s'
  end.

(** The code units that [String.prototype.trim] strips: ECMAScript's
    WhiteSpace (TAB, VT, FF, SP, NBSP, ZWNBSP and the category Zs) and
    LineTerminator (LF, CR, LS, PS). *)
Definition isWhiteSpace (c : Z) : bool :=
  (9 <=? c) && (c <=? 13)
  || (c =? 32) || (c =? 160) || (c =? 5760)
  || (8192 <=? c) && (c <=? 8202)
  || (c =? 8232) || (c =? 8233) || (c =? 8239) || (c =? 8287)
  || (c =? 12288) || (c =? 65279).

Fixpoint trimStart (s : jsstring) : jsstring :=
  match s with
  | [] => []
  | c :: s' => if isWhiteSpace c then trimStart s' else s
  end.

Definition trimEnd (s : jsstring) : jsstring :=
  rev (trimStart (rev s)).

Definition trim (s : jsstring) : jsstring := trimEnd (trimStart s).

(** [s !== ""] *)
Definition nonEmpty (s : jsstring) : bool :=
  match s with [] => false | _ :: _ => true end.

(** [s.split(sep)] for a separator of one code unit: the pieces between the
    occurrences of [sep]; there is always at least one piece. *)
Fixpoint split (sep : Z) (s : jsstring) : list jsstring :=
  match s with
  | [] => [[]]
  | c :: s' =>
      if c =? sep then [] :: split sep s'
      else match split sep s' with
           | [] => [[c]]
           | piece :: pieces => (c :: piece) :: pieces
           end
  end.

(** [pieces.join(sep)] *)
Fixpoint join (sep : jsstring) (pieces : list jsstring) : jsstring :=
  match pieces with
  | [] => []
  | [piece] => piece
  | piece :: rest => piece ++ sep ++ join sep rest
  end.

(** ** The transcript cleaner (index.js, lines 251-258) *)

Definition placeholder : jsstring := lit "Agent: Agent message not found".

Definition cleanTranscript (transcript : jsstring) : jsstring :=
  join [LF; LF]
    (List.filter (fun line => nonEmpty (trim line))
       (List.filter (fun line => negb (includes placeholder line))
          (split LF transcript))).

(** ** Values

    What [JSON.parse] returns, and [undefined], which reading a missing
    property yields.  The handlers never compute with a number: they pass it
    on or print it, so a number is kept as the text [String(n)] gives for
    it.  An object lists its own properties, each name once. *)

#[warnings="-register-all"]
Inductive value :=
| VUndefined
| VNull
| VBoolean (b : bool)
| VNumber (repr : jsstring)
| VString (s : jsstring)
| VArray (elems : list value)
| VObject (props : list (jsstring * value)).

Inductive error := TypeError | SyntaxError | ReferenceError.

(** The outcome of evaluating an expression: a value, or a thrown error. *)
Inductive completion (A : Type) :=
| Normal (a : A)
| Throw (e : error).
Arguments Normal {A} a.
Arguments Throw {A} e.

#[global] Instance completion_ret : MRet completion := @Normal.
#[global] Instance completion_bind : MBind completion :=
  fun A B f m => match m with Normal a => f a | Throw e => Throw e end.

(** [try { body } catch (error) { console.error(...) }]: when the body
    throws, the handler ends with the state it started from (every body
    below assigns only in its last statement). *)
Definition try_catch {A} (body : completion A) (unchanged : A) : A :=
  match body with Normal a => a | Throw _ => unchanged end.

(** [JSON.parse(text)]: the event carries the parsed value, or [None] for a
    text that is not JSON. *)
Definition JSON_parse (text : option value) : completion value :=
  match text with Some v => Normal v | None => Throw SyntaxError end.

Fixpoint getOwn (name : jsstring) (props : list (jsstring * value)) : value :=
  match props with
  | [] => VUndefined
  | (n, v) :: rest => if decide (n = name) then v else getOwn name rest
  end.

(** [v.name] for the property names the source reads ([event], [media],
    [payload], [start], [streamSid], [type], [text], [chunk], [From],
    [CallSid]): none of them is inherited, so only an object has them;
    reading a property of [undefined] or [null] throws. *)
Definition get (v : value) (name : string) : completion value :=
  match v with
  | VUndefined | VNull => Throw TypeError
  | VObject props => Normal (getOwn (lit name) props)
  | _ => Normal VUndefined
  end.

(** [v.trim()]: only a string has the method. *)
Definition call_trim (v : value) : completion jsstring :=
  match v with
  | VString s => Normal (trim s)
  | _ => Throw TypeError
  end.

(** Truthiness, for [||]. *)
Definition truthy (v : value) : bool :=
  match v with
  | VUndefined | VNull => false
  | VBoolean b => b
  | VNumber repr =>
      negb (bool_decide (repr = lit "0") || bool_decide (repr = lit "NaN"))
  | VString s => nonEmpty s
  | VArray _ | VObject _ => true
  end.

Definition or_else (v fallback : value) : value :=
  if truthy v then v else fallback.

(** The conversion to string a template literal applies to [${v}].  An
    array prints its elements separated by commas, [null] and [undefined]
    as nothing; an object prints as [[object Object]], unless an own
    property hides [toString], which is then not callable. *)
Fixpoint ToString (v : value) : completion jsstring :=
  match v with
  | VUndefined => Normal (lit "undefined")
  | VNull => Normal (lit "null")
  | VBoolean b => Normal (lit (if b then "true" else "false"))
  | VNumber repr => Normal repr
  | VString s => Normal s
  | VArray elems =>
      let element e :=
        match e with
        | VUndefined | VNull => Normal []
        | _ => ToString e
        end in
      (fix elements (es : list value) : completion jsstring :=
         match es with
         | [] => Normal []
         | [e] => element e
         | e :: rest =>
             s ← element e; r ← elements rest; Normal (s ++ lit "," ++ r)
         end) elems
  | VObject props =>
      match getOwn (lit "toString") props with
      | VUndefined => Normal (lit "[object Object]")
      | _ => Throw TypeError
      end
  end.

(** [v === "literal"], the comparison a [switch] on string cases makes. *)
Definition is_string (v : value) (literal : string) : bool :=
  match v with
  | VString s => bool_decide (s = lit literal)
  | _ => false
  end.

Definition defined (v : value) : bool :=
  match v with VUndefined => false | _ => true end.

(** A message is recorded as the value its [JSON.stringify] text denotes.
    The property values of the object literals below are constants or come
    out of [JSON.parse], so the text is the literal itself with every
    property whose value is [undefined] left out. *)
Definition JSON_stringify (literal : list (string * value)) : value :=
  VObject
    (List.map (fun p => (lit (fst p), snd p))
       (List.filter (fun p => defined (snd p)) literal)).

(** ** Constants (index.js, lines 31-53) *)

Definition SYSTEM_MESSAGE : jsstring := lit
"## INSTRUCTIONS:
- You are The Codebender, an energetic AI Voice Agent on a mission to transform everyday coders into codebenders, people who bend lines of code into digital masterpieces!
- Please make sure to respond with a helpful voice via audio
- Your response should be concise and to the point, keep it short. Bring the conversation back on topic if necessary.
- You can ask the user questions. 

------
## PERSONALITY:
- Be upbeat and super kind
- Speak FAST as if excited

-----
## GOAL: 
- Your primary objective is to identify if the contact is interested in joining the Codebender Accelerator program.
- If they express interest, your mission is to provide them with useful information about our services and ultimately retrieve their name and address

## SERVICES INFORMATION:
- The Codebender Accelerator program has weekly calls where we discuss state-of-the-art AI topics
- We also have a course teaching you how to build AI apps, and MUCH more!
".

Definition VOICE : jsstring := lit "ballad".

(** ** Process-wide state (index.js, lines 55-59)

    [callerNumber] and [callSid] are module-level variables; [sessions] is
    the registry, a [Map] from call identifier to session object.  A session
    object is shared by reference between the registry and the closures of
    every connection that looked it up, so the objects live in a store and
    the registry and the closures hold references into it. *)

Record session := {
  transcript : jsstring;
  streamSid : value;
}.

(** The states of a [ws] socket. *)
Inductive ReadyState := CONNECTING | OPEN | CLOSING | CLOSED.

#[global] Instance ReadyState_eq_dec : EqDecision ReadyState.
Proof. solve_decision. Defined.

(** What the closure of one [/media-stream] connection holds: the constant
    [sessionId], the variable [session] (a reference), the upstream socket
    [vapiWs] with the messages sent on it so far, oldest first, and the
    messages sent on the downstream [connection.socket]. *)
Record connection := {
  sessionId : jsstring;
  session_ref : nat;
  vapiWs_readyState : ReadyState;
  vapiWs_sent : list value;
  socket_sent : list value;
}.

Record state := {
  callerNumber : value;
  callSid : value;
  sessions : gmap jsstring nat;
  store : list session;
  connections : list connection;
  fetched : list value;
}.

(** The process right after start-up. *)
Definition initial : state := {|
  callerNumber := VNull;
  callSid := VNull;
  sessions := ∅;
  store := [];
  connections := [];
  fetched := [];
|}.

(** ** The [/incoming-call] route (index.js, lines 80-100) *)

Definition incoming_call (body query : value) (σ : state) : state :=
  let twilioParams := or_else body query in
  try_catch
    (From ← get twilioParams "From";
     CallSid ← get twilioParams "CallSid";
     Normal {| callerNumber := or_else From VNull;
               callSid := CallSid;
               sessions := sessions σ;
               store := store σ;
               connections := connections σ;
               fetched := fetched σ |})
    σ.

(** ** The [/media-stream] route (index.js, lines 104-240) *)

(** Lines 107-113: the session is looked up or created, and registered.
    [header] is the request's [x-twilio-call-sid] header, [now] the clock
    reading [Date.now()]. *)
Definition new_sessionId (header : option jsstring) (now : N) : jsstring :=
  match header with
  | Some (c :: h) => c :: h
  | _ => lit "session_" ++ lit (pretty now)
  end.

Definition media_stream (header : option jsstring) (now : N) (σ : state) : state :=
  let sessionId := new_sessionId header now in
  let '(session, store') :=
    match sessions σ !! sessionId with
    | Some existing => (existing, store σ)
    | None =>
        (length (store σ),
         store σ ++ [{| transcript := []; streamSid := VNull |}])
    end in
  {| callerNumber := callerNumber σ;
     callSid := callSid σ;
     sessions := <[sessionId := session]> (sessions σ);
     store := store';
     connections :=
       connections σ ++
       [{| sessionId := sessionId;
           session_ref := session;
           vapiWs_readyState := CONNECTING;
           vapiWs_sent := [];
           socket_sent := [] |}];
     fetched := fetched σ |}.

Definition vapiWs_send (message : value) (k : connection) : connection :=
  {| sessionId := sessionId k;
     session_ref := session_ref k;
     vapiWs_readyState := vapiWs_readyState k;
     vapiWs_sent := vapiWs_sent k ++ [message];
     socket_sent := socket_sent k |}.

Definition socket_send (message : value) (k : connection) : connection :=
  {| sessionId := sessionId k;
     session_ref := session_ref k;
     vapiWs_readyState := vapiWs_readyState k;
     vapiWs_sent := vapiWs_sent k;
     socket_sent := socket_sent k ++ [message] |}.

Definition set_readyState (r : ReadyState) (k : connection) : connection :=
  {| sessionId := sessionId k;
     session_ref := session_ref k;
     vapiWs_readyState := r;
     vapiWs_sent := vapiWs_sent k;
     socket_sent := socket_sent k |}.

(** Lines 124-146: [vapiWs.on("open")]. *)
Definition sessionUpdate : value :=
  JSON_stringify
    [("type", VString (lit "start"));
     ("config",
      JSON_stringify
        [("audio",
          JSON_stringify
            [("encoding", VString (lit "mulaw"));
             ("sampleRate", VNumber (lit "8000"))]);
         ("voice", JSON_stringify [("type", VString VOICE)]);
         ("assistant",
          JSON_stringify
            [("prompt", VString SYSTEM_MESSAGE);
             ("temperature", VNumber (lit "0.8"))])])].

Definition on_vapi_open (k : connection) : connection :=
  vapiWs_send sessionUpdate k.

(** The prefixes of the two template literals of lines 157 and 163: a man
    office worker (U+1F468 U+200D U+1F4BC) and a studio microphone
    (U+1F399 U+FE0F), each followed by a space and the speaker. *)
Definition user_prefix : jsstring :=
  [0xD83D; 0xDC68; 0x200D; 0xD83D; 0xDCBC] ++ lit " User: ".
Definition agent_prefix : jsstring :=
  [0xD83C; 0xDF99; 0xFE0F] ++ lit " Agent: ".

Definition append_transcript (text : jsstring) (s : session) : session :=
  {| transcript := transcript s ++ text; streamSid := streamSid s |}.

(** Lines 168-172: the message that carries an upstream audio chunk to the
    telephony peer. *)
Definition audioDelta (streamSid chunk : value) : value :=
  JSON_stringify
    [("event", VString (lit "media"));
     ("streamSid", streamSid);
     ("media", JSON_stringify [("payload", chunk)])].

(** Lines 198-201: the message that carries a downstream payload to the
    voice service. *)
Definition audioMessage (payload : value) : value :=
  JSON_stringify [("type", VString (lit "audio")); ("chunk", payload)].

(** Lines 149-188: the body of the [try] block of [vapiWs.on("message")]. *)
Definition vapi_message_body (data : option value)
    (ks : connection * session) : completion (connection * session) :=
  let '(k, s) := ks in
  response ← JSON_parse data;
  type ← get response "type";
  if is_string type "transcript" then
    text ← get response "text";
    userMessage ← call_trim text;
    Normal (k, append_transcript (user_prefix ++ userMessage ++ [LF]) s)
  else if is_string type "assistant_response" then
    agentMessage ← get response "text";
    printed ← ToString agentMessage;
    Normal (k, append_transcript (agent_prefix ++ printed ++ [LF]) s)
  else if is_string type "audio" then
    chunk ← get response "chunk";
    Normal (socket_send (audioDelta (streamSid s) chunk) k, s)
  else
    (* "error" is only printed; there is no default case *)
    Normal (k, s).

Definition on_vapi_message (data : option value)
    (ks : connection * session) : connection * session :=
  try_catch (vapi_message_body data ks) ks.

(** Lines 191-216: the body of the [try] block of
    [connection.socket.on("message")]. *)
Definition socket_message_body (message : option value)
    (ks : connection * session) : completion (connection * session) :=
  let '(k, s) := ks in
  data ← JSON_parse message;
  event ← get data "event";
  if is_string event "media" then
    if bool_decide (vapiWs_readyState k = OPEN) then
      media ← get data "media";
      payload ← get media "payload";
      Normal (vapiWs_send (audioMessage payload) k, s)
    else
      Normal (k, s)
  else if is_string event "start" then
    start ← get data "start";
    sid ← get start "streamSid";
    Normal (k, {| transcript := transcript s; streamSid := sid |})
  else
    Normal (k, s).

Definition on_socket_message (message : option value)
    (ks : connection * session) : connection * session :=
  try_catch (socket_message_body message ks) ks.

(** Lines 228-239: [connection.socket.on("close")].  [vapiWs.close()] on an
    open socket puts it in the state [CLOSING]. *)
Definition on_socket_close (ks : connection * session) : connection * session :=
  let '(k, s) := ks in
  (if bool_decide (vapiWs_readyState k = OPEN) then set_readyState CLOSING k
   else k,
   {| transcript := cleanTranscript (transcript s); streamSid := streamSid s |}).

(** ** Handlers on the whole process

    A handler of connection [c] reads the closure of [c] and the session
    object its [session] variable refers to, and writes both back. *)

Definition with_connection (c : nat)
    (handler : connection * session -> connection * session)
    (σ : state) : state :=
  match connections σ !! c with
  | None => σ
  | Some k =>
      match store σ !! session_ref k with
      | None => σ
      | Some s =>
          let '(k', s') := handler (k, s) in
          {| callerNumber := callerNumber σ;
             callSid := callSid σ;
             sessions := sessions σ;
             store := <[session_ref k := s']> (store σ);
             connections := <[c := k']> (connections σ);
             fetched := fetched σ |}
      end
  end.

(** The close handler ends with [sessions.delete(sessionId)] (line 238). *)
Definition socket_close (c : nat) (σ : state) : state :=
  match connections σ !! c with
  | None => σ
  | Some k =>
      let σ' := with_connection c on_socket_close σ in
      {| callerNumber := callerNumber σ';
         callSid := callSid σ';
         sessions := delete (sessionId k) (sessions σ');
         store := store σ';
         connections := connections σ';
         fetched := fetched σ' |}
  end.

(** ** Post-call extraction (index.js, lines 260-340)

    [makeChatGPTCompletion] is written to post one request whose user
    message is the transcript; [fetched] records the requests made.  The
    file declares [OPENAI_API_KEY] nowhere: reading it, when the headers of
    the request are built (line 267), throws a [ReferenceError] inside the
    [try], before [fetch] is called, and the [catch] prints the error and
    throws it again.  [reply] stands for what the request and
    [response.json()] give, a value or an error. *)

Definition OPENAI_API_KEY : completion jsstring := Throw ReferenceError.

Definition makeChatGPTCompletion (transcript : jsstring)
    (reply : completion value) (σ : state) : completion value * state :=
  match OPENAI_API_KEY with
  | Throw e => (Throw e, σ)
  | Normal key =>
      let body :=
        JSON_stringify
          [("model", VString (lit "gpt-4o-2024-08-06"));
           ("messages",
            VArray
              [JSON_stringify
                 [("role", VString (lit "system"));
                  ("content",
                   VString (lit "Extract customer details: name and address from the transcript. Do not invent any information; if the customer's name or address cannot be found, set the value to 'NONE'."))];
               JSON_stringify
                 [("role", VString (lit "user"));
                  ("content", VString transcript)]]);
           ("response_format",
            JSON_stringify
              [("type", VString (lit "json_schema"));
               ("json_schema",
                JSON_stringify
                  [("name", VString (lit "customer_details_extraction"));
                   ("schema",
                    JSON_stringify
                      [("type", VString (lit "object"));
                       ("properties",
                        JSON_stringify
                          [("customerName",
                            JSON_stringify
                              [("type", VString (lit "string"));
                               ("default", VString (lit "NONE"))]);
                           ("customerAddress",
                            JSON_stringify
                              [("type", VString (lit "string"));
                               ("default", VString (lit "NONE"))])]);
                       ("required",
                        VArray
                          [VString (lit "customerName");
                           VString (lit "customerAddress")])])])])] in
      let request :=
        JSON_stringify
          [("method", VString (lit "POST"));
           ("headers",
            JSON_stringify
              [("Authorization", VString (lit "Bearer " ++ key));
               ("Content-Type", VString (lit "application/json"))]);
           ("body", body)] in
      (reply,
       {| callerNumber := callerNumber σ;
          callSid := callSid σ;
          sessions := sessions σ;
          store := store σ;
          connections := connections σ;
          fetched := fetched σ ++ [request] |})
  end.

(** [processTranscriptAndSend] (lines 308-340) calls
    [makeChatGPTCompletion] inside a [try] that catches whatever it throws;
    what comes back is only printed, as is the [sessionId] argument, and
    [callerNumber] is read only to choose what to print. *)
Definition processTranscriptAndSend (transcript : jsstring)
    (reply : completion value) (σ : state) : state :=
  snd (makeChatGPTCompletion transcript reply σ).

(** ** Events and runs

    What can happen to the process: a request on either route, and the
    events the two sockets of connection [c] emit.  The [ws] library moves
    [vapiWs.readyState] itself: to [OPEN] right before it emits [open], which
    it does from [CONNECTING] only; to [CLOSING] before [error]; to [CLOSED]
    before [close].  It delivers messages on a socket that has opened and
    not yet closed. *)

Inductive event :=
| IncomingCall (body query : value)
| MediaStream (header : option jsstring) (now : N)
| VapiOpen (c : nat)
| VapiMessage (c : nat) (data : option value)
| VapiError (c : nat)
| VapiClose (c : nat)
| SocketMessage (c : nat) (message : option value)
| SocketClose (c : nat).

Definition readyState_is (c : nat) (allowed : list ReadyState) (σ : state) : bool :=
  match connections σ !! c with
  | None => false
  | Some k => bool_decide (vapiWs_readyState k ∈ allowed)
  end.

Definition step (e : event) (σ : state) : option state :=
  match e with
  | IncomingCall body query => Some (incoming_call body query σ)
  | MediaStream header now => Some (media_stream header now σ)
  | VapiOpen c =>
      if readyState_is c [CONNECTING] σ then
        Some (with_connection c
                (fun ks => (on_vapi_open (set_readyState OPEN (fst ks)), snd ks)) σ)
      else None
  | VapiMessage c data =>
      if readyState_is c [OPEN; CLOSING] σ then
        Some (with_connection c (on_vapi_message data) σ)
      else None
  | VapiError c =>
      if readyState_is c [CONNECTING; OPEN; CLOSING] σ then
        Some (with_connection c
                (fun ks => (set_readyState CLOSING (fst ks), snd ks)) σ)
      else None
  | VapiClose c =>
      if readyState_is c [CONNECTING; OPEN; CLOSING] σ then
        Some (with_connection c
                (fun ks => (set_readyState CLOSED (fst ks), snd ks)) σ)
      else None
  | SocketMessage c message =>
      if readyState_is c [CONNECTING; OPEN; CLOSING; CLOSED] σ then
        Some (with_connection c (on_socket_message message) σ)
      else None
  | SocketClose c =>
      if readyState_is c [CONNECTING; OPEN; CLOSING; CLOSED] σ then
        Some (socket_close c σ)
      else None
  end.

Fixpoint run (events : list event) (σ : state) : option state :=
  match events with
  | [] => Some σ
  | e :: rest =>
      match step e σ with
      | Some σ' => run rest σ'
      | None => None
      end
  end.

(** Small values for the examples below. *)
Definition obj (props : list (string * value)) : value :=
  VObject (List.map (fun p => (lit (fst p), snd p)) props).
Definition str (s : string) : value := VString (lit s).


(** * Properties *)

(** ** Strings *)

Section split_join.

Variable sep : Z.

Lemma split_nonempty (s : jsstring) : split sep s <> [].
Proof.
  destruct s as [|c s]; simpl; [discriminate|].
  destruct (c =? sep); [discriminate|].
  destruct (split sep s); discriminate.
Qed.

(** Splitting at a separator splits the text before it and the text
    after it. *)
Lemma split_app_sep (a b : jsstring) :
  split sep (a ++ sep :: b) = split sep a ++ split sep b.
Proof.
  induction a as [|c a IH]; simpl.
  - now rewrite Z.eqb_refl.
  - destruct (c =? sep); [now rewrite IH|].
    rewrite IH. destruct (split sep a) as [|piece pieces] eqn:E.
    + now apply split_nonempty in E.
    + reflexivity.
Qed.

Lemma split_without_sep (s : jsstring) :
  ~ In sep s -> split sep s = [s].
Proof.
  induction s as [|c s IH]; simpl; intros Hs; [reflexivity|].
  destruct (Z.eqb_spec c sep) as [->|Hc]; [tauto|].
  rewrite IH by tauto. reflexivity.
Qed.

Lemma split_pieces_without_sep (s : jsstring) :
  Forall (fun piece => ~ In sep piece) (split sep s).
Proof.
  induction s as [|c s IH]; simpl.
  - constructor; [tauto|constructor].
  - destruct (Z.eqb_spec c sep) as [->|Hc].
    + constructor; [simpl; tauto|exact IH].
    + destruct (split sep s) as [|piece pieces]; [repeat constructor; simpl; tauto|].
      inversion IH; subst. constructor; [simpl; tauto|assumption].
Qed.

(** Joining pieces with two separators and splitting again gives the
    pieces back, with an empty piece between each two. *)
Lemma filter_split_join (keep : jsstring -> bool) (pieces : list jsstring) :
  keep [] = false ->
  Forall (fun piece => ~ In sep piece /\ keep piece = true) pieces ->
  List.filter keep (split sep (join [sep; sep] pieces)) = pieces.
Proof.
  intros Hnil. induction pieces as [|p [|q rest] IH]; intros Hall.
  - simpl. now rewrite Hnil.
  - inversion Hall as [|? ? [Hp Hk] _]; subst. simpl.
    rewrite split_without_sep by assumption. simpl. now rewrite Hk.
  - inversion Hall as [|? ? [Hp Hk] Hrest]; subst.
    change (join [sep; sep] (p :: q :: rest))
      with (p ++ sep :: ([] ++ sep :: join [sep; sep] (q :: rest))).
    rewrite !split_app_sep, split_without_sep by assumption.
    simpl List.filter at 1. simpl app. simpl List.filter at 1.
    rewrite Hk, Hnil. f_equal. now apply IH.
Qed.

End split_join.

Lemma filter_filter {A} (f g : A -> bool) (l : list A) :
  List.filter g (List.filter f l) = List.filter (fun x => f x && g x) l.
Proof.
  induction l as [|x l IH]; simpl; [reflexivity|].
  destruct (f x); simpl; [destruct (g x)|]; now rewrite IH.
Qed.

(** ** The transcript cleaner *)

(** The lines [cleanTranscript] lets through: those that do not contain the
    placeholder and are not blank. *)
Definition kept (line : jsstring) : bool :=
  negb (includes placeholder line) && nonEmpty (trim line).

Lemma cleanTranscript_join (T : jsstring) :
  cleanTranscript T = join [LF; LF] (List.filter kept (split LF T)).
Proof. unfold cleanTranscript. now rewrite filter_filter. Qed.

Lemma kept_lines (T : jsstring) :
  Forall (fun line => ~ In LF line /\ kept line = true)
    (List.filter kept (split LF T)).
Proof.
  apply List.Forall_forall. intros line Hin.
  apply List.filter_In in Hin as [Hin Hk]. split; [|exact Hk].
  pose proof (split_pieces_without_sep LF T) as H.
  rewrite List.Forall_forall in H. now apply H.
Qed.

Lemma kept_nonEmpty (line : jsstring) : kept line = true -> nonEmpty line = true.
Proof. destruct line; [|reflexivity]. unfold kept. now rewrite andb_comm. Qed.

(** The lines of a transcript that carry text: the blank separator lines
    that [join] puts between them are skipped. *)
Definition text_lines (T : jsstring) : list jsstring :=
  List.filter nonEmpty (split LF T).

(** The reading of the cleaner by equality with the placeholder: a line
    goes exactly when it is the placeholder or blank. *)
Definition kept_by_equality (line : jsstring) : bool :=
  negb (bool_decide (line = placeholder)) && nonEmpty (trim line).

(** C3, as stated, fails: the line the relay itself writes for an agent
    message "Agent message not found" carries the speaker prefix, so it is
    not equal to the placeholder and not blank, and it is removed all the
    same. *)
Lemma cleanTranscript_not_by_equality :
  ~ (forall T : jsstring,
       text_lines (cleanTranscript T) = List.filter kept_by_equality (split LF T)).
Proof.
  intros H.
  specialize (H (agent_prefix ++ lit "Agent message not found")).
  vm_compute in H. discriminate H.
Qed.

(** C3, amended: [cleanTranscript] removes exactly the lines that contain
    "Agent: Agent message not found" and the lines that are empty after
    trimming; the other lines come out verbatim, in order, joined by a blank
    line. *)
Theorem cleanTranscript_keeps_exactly (T : jsstring) :
  cleanTranscript T = join [LF; LF] (List.filter kept (split LF T)) /\
  text_lines (cleanTranscript T) = List.filter kept (split LF T).
Proof.
  split; [apply cleanTranscript_join|].
  rewrite cleanTranscript_join. unfold text_lines.
  apply filter_split_join; [reflexivity|].
  eapply List.Forall_impl; [|apply kept_lines].
  intros line [Hlf Hk]. split; [assumption|now apply kept_nonEmpty].
Qed.

(** The kept lines of a cleaned transcript are the kept lines of the
    transcript. *)
Lemma kept_lines_of_clean (T : jsstring) :
  List.filter kept (split LF (cleanTranscript T)) = List.filter kept (split LF T).
Proof.
  rewrite cleanTranscript_join.
  apply filter_split_join; [reflexivity|apply kept_lines].
Qed.

(** C4: cleaning is idempotent: for every transcript [T],
    [cleanTranscript (cleanTranscript T)] is [cleanTranscript T]. *)
Theorem cleanTranscript_idempotent (T : jsstring) :
  cleanTranscript (cleanTranscript T) = cleanTranscript T.
Proof.
  rewrite (cleanTranscript_join (cleanTranscript T)).
  rewrite kept_lines_of_clean.
  symmetry. apply cleanTranscript_join.
Qed.

(** ** The two message handlers *)

(** The state of the process with the closure of connection [c] replaced. *)
Definition set_connection (c : nat) (k : connection) (σ : state) : state :=
  {| callerNumber := callerNumber σ;
     callSid := callSid σ;
     sessions := sessions σ;
     store := store σ;
     connections := <[c := k]> (connections σ);
     fetched := fetched σ |}.

(** The state of the process with one session object replaced. *)
Definition set_session (r : nat) (s : session) (σ : state) : state :=
  {| callerNumber := callerNumber σ;
     callSid := callSid σ;
     sessions := sessions σ;
     store := <[r := s]> (store σ);
     connections := connections σ;
     fetched := fetched σ |}.

Lemma set_connection_same (c : nat) (k : connection) (σ : state) :
  connections σ !! c = Some k -> set_connection c k σ = σ.
Proof.
  intros H. destruct σ; unfold set_connection; simpl in *.
  now rewrite list_insert_id.
Qed.

Lemma set_session_same (r : nat) (s : session) (σ : state) :
  store σ !! r = Some s -> set_session r s σ = σ.
Proof.
  intros H. destruct σ; unfold set_session; simpl in *.
  now rewrite list_insert_id.
Qed.

Lemma with_connection_eq (c : nat) handler (σ : state) k s k' s' :
  connections σ !! c = Some k ->
  store σ !! session_ref k = Some s ->
  handler (k, s) = (k', s') ->
  with_connection c handler σ = set_connection c k' (set_session (session_ref k) s' σ).
Proof.
  intros Hk Hs Hh. unfold with_connection. now rewrite Hk, Hs, Hh.
Qed.

Lemma readyState_is_all (c : nat) (σ : state) k :
  connections σ !! c = Some k ->
  readyState_is c [CONNECTING; OPEN; CLOSING; CLOSED] σ = true.
Proof.
  intros Hk. unfold readyState_is. rewrite Hk. apply bool_decide_eq_true.
  destruct (vapiWs_readyState k); set_solver.
Qed.

(** C5: a downstream [media] event that finds the upstream socket not open
    changes nothing: the body of the handler ends normally and the process
    is in the state it was in, with nothing sent and nothing kept for
    later.  When the socket is open, the payload goes upstream in an
    [audio] message whose [chunk] is that payload. *)
Theorem media_dropped_unless_open (σ : state) (c : nat) (k : connection)
    (s : session) (data : value) :
  connections σ !! c = Some k ->
  store σ !! session_ref k = Some s ->
  get data "event" = Normal (str "media") ->
  (vapiWs_readyState k <> OPEN ->
     socket_message_body (Some data) (k, s) = Normal (k, s) /\
     step (SocketMessage c (Some data)) σ = Some σ) /\
  (vapiWs_readyState k = OPEN ->
     forall media payload,
       get data "media" = Normal media ->
       get media "payload" = Normal payload ->
       defined payload = true ->
       socket_message_body (Some data) (k, s) =
         Normal (vapiWs_send (obj [("type", str "audio"); ("chunk", payload)]) k, s) /\
       step (SocketMessage c (Some data)) σ =
         Some (set_connection c
                 (vapiWs_send (obj [("type", str "audio"); ("chunk", payload)]) k) σ)).
Proof.
  intros Hk Hs Hev. split.
  - intros Hclosed.
    assert (Hbody : socket_message_body (Some data) (k, s) = Normal (k, s)).
    { unfold socket_message_body. simpl. rewrite Hev. simpl.
      rewrite bool_decide_eq_false_2 by assumption. reflexivity. }
    split; [exact Hbody|].
    unfold step. rewrite (readyState_is_all _ _ _ Hk).
    rewrite (with_connection_eq c _ σ k s k s Hk Hs).
    + rewrite set_session_same by assumption.
      now rewrite set_connection_same.
    + unfold on_socket_message. now rewrite Hbody.
  - intros Hopen media payload Hmedia Hpayload Hdef.
    assert (Hbody : socket_message_body (Some data) (k, s) =
              Normal (vapiWs_send (obj [("type", str "audio"); ("chunk", payload)]) k, s)).
    { unfold socket_message_body. simpl. rewrite Hev. simpl.
      rewrite bool_decide_eq_true_2 by assumption.
      rewrite Hmedia. simpl. rewrite Hpayload. simpl.
      unfold audioMessage, JSON_stringify. simpl. now rewrite Hdef. }
    split; [exact Hbody|].
    unfold step. rewrite (readyState_is_all _ _ _ Hk).
    erewrite with_connection_eq;
      [|exact Hk|exact Hs|unfold on_socket_message; now rewrite Hbody].
    now rewrite set_session_same.
Qed.

(** Sample data: the state after a first [/media-stream] request with call
    identifier [CA1], the same once the upstream socket has opened, and the
    closure and session object of that connection. *)
Definition connecting : state := media_stream (Some (lit "CA1")) 0 initial.
Definition streaming : state :=
  with_connection 0
    (fun ks => (on_vapi_open (set_readyState OPEN (fst ks)), snd ks)) connecting.
Definition closure0 : connection :=
  {| sessionId := lit "CA1"; session_ref := 0;
     vapiWs_readyState := CONNECTING; vapiWs_sent := []; socket_sent := [] |}.
Definition session0 : session := {| transcript := []; streamSid := VNull |}.
Definition media_event (payload : value) : value :=
  obj [("event", str "media"); ("media", obj [("payload", payload)])].
Definition start_event (sid : value) : value :=
  obj [("event", str "start"); ("start", obj [("streamSid", sid)])].

Lemma media_dropped_unless_open_witness :
  step (SocketMessage 0 (Some (media_event (str "abc")))) connecting = Some connecting /\
  step (SocketMessage 0 (Some (media_event (str "abc")))) streaming =
    Some (set_connection 0
            (vapiWs_send (obj [("type", str "audio"); ("chunk", str "abc")])
               (on_vapi_open (set_readyState OPEN closure0))) streaming).
Proof.
  split.
  - refine (proj2 (proj1 (media_dropped_unless_open connecting 0 closure0 session0
              (media_event (str "abc")) _ _ _) _));
      [reflexivity|reflexivity|reflexivity|discriminate].
  - refine (proj2 (proj2 (media_dropped_unless_open streaming 0
              (on_vapi_open (set_readyState OPEN closure0)) session0
              (media_event (str "abc")) _ _ _) _
              (obj [("payload", str "abc")]) (str "abc") _ _ _));
      reflexivity.
Defined.

(** C2, as stated, fails: a second [start] event replaces the stream
    identifier the first one set. *)
Lemma second_start_overwrites_streamSid :
  let first := on_socket_message (Some (start_event (str "SS1"))) (closure0, session0) in
  let second := on_socket_message (Some (start_event (str "SS2"))) first in
  streamSid (snd first) = str "SS1" /\
  streamSid (snd second) = str "SS2" /\
  streamSid (snd second) <> streamSid (snd first).
Proof. vm_compute. repeat split; discriminate. Qed.

(** C2, amended: every [start] event sets the stream identifier of the
    session to the value it carries, whatever the identifier was before;
    the last one wins. *)
Theorem start_sets_streamSid (data start sid : value) (k : connection) (s : session) :
  get data "event" = Normal (str "start") ->
  get data "start" = Normal start ->
  get start "streamSid" = Normal sid ->
  on_socket_message (Some data) (k, s) =
    (k, {| transcript := transcript s; streamSid := sid |}).
Proof.
  intros Hev Hstart Hsid. unfold on_socket_message, socket_message_body.
  simpl. rewrite Hev. simpl. rewrite Hstart. simpl. now rewrite Hsid.
Qed.

Lemma start_sets_streamSid_witness :
  on_socket_message (Some (start_event (str "SS2")))
    (closure0, {| transcript := []; streamSid := str "SS1" |}) =
  (closure0, {| transcript := []; streamSid := str "SS2" |}).
Proof.
  apply (start_sets_streamSid (start_event (str "SS2"))
           (obj [("streamSid", str "SS2")]) (str "SS2")); reflexivity.
Defined.

Lemma split_app_without_sep (sep : Z) (a b : jsstring) :
  ~ In sep b ->
  exists pieces piece,
    split sep a = pieces ++ [piece] /\ split sep (a ++ b) = pieces ++ [piece ++ b].
Proof.
  intros Hb. induction a as [|c a (pieces & piece & Ha & Hab)].
  - exists [], []. simpl. split; [reflexivity|now apply split_without_sep].
  - simpl. rewrite Ha, Hab. destruct (c =? sep).
    + exists ([] :: pieces), piece. now split.
    + destruct pieces as [|p pieces]; simpl.
      * exists [], (c :: piece). now split.
      * exists ((c :: p) :: pieces), piece. now split.
Qed.

(** C6, as stated, fails on the example of the specification: the line
    written for the text [" hello "] starts with the speaker emoji, so no
    line of the transcript is ["User: hello"]. *)
Lemma user_line_is_not_bare :
  let after :=
    on_vapi_message (Some (obj [("type", str "transcript"); ("text", str " hello ")]))
      (closure0, session0) in
  split LF (transcript (snd after)) = [user_prefix ++ lit "hello"; []] /\
  ~ In (lit "User: hello") (split LF (transcript (snd after))).
Proof.
  vm_compute. split; [reflexivity|].
  intros [H|[H|[]]]; discriminate H.
Qed.

(** C6, amended: an upstream [transcript] event with text [t] appends to
    the transcript the speaker prefix (man office worker emoji, space,
    ["User: "]), then [t] trimmed, then a line feed.  When the trimmed text
    has no line feed and the transcript so far is empty or ends in a line
    feed, that is exactly one new line. *)
Theorem transcript_gains_user_line (response : value) (t : jsstring)
    (k : connection) (s : session) :
  get response "type" = Normal (str "transcript") ->
  get response "text" = Normal (VString t) ->
  on_vapi_message (Some response) (k, s) =
    (k, {| transcript := transcript s ++ user_prefix ++ trim t ++ [LF];
           streamSid := streamSid s |}) /\
  (~ In LF (trim t) ->
   forall before,
     split LF (transcript s) = before ++ [[]] ->
     split LF (transcript s ++ user_prefix ++ trim t ++ [LF]) =
       before ++ [user_prefix ++ trim t; []]).
Proof.
  intros Htype Htext. split.
  - unfold on_vapi_message, vapi_message_body. simpl.
    rewrite Htype. simpl. rewrite Htext. reflexivity.
  - intros Hlf before Hbefore.
    assert (Hline : ~ In LF (user_prefix ++ trim t)).
    { rewrite List.in_app_iff. intros [H|H]; [|tauto].
      vm_compute in H. intuition discriminate. }
    destruct (split_app_without_sep LF (transcript s) _ Hline)
      as (pieces & piece & Hs & Hsplit).
    rewrite Hbefore in Hs. apply app_inj_tail in Hs as [? ?]. subst.
    replace (transcript s ++ user_prefix ++ trim t ++ [LF])
      with ((transcript s ++ user_prefix ++ trim t) ++ LF :: [])
      by now rewrite <- !List.app_assoc.
    rewrite split_app_sep, Hsplit. simpl.
    now rewrite <- List.app_assoc.
Qed.

Lemma transcript_gains_user_line_witness :
  on_vapi_message (Some (obj [("type", str "transcript"); ("text", str " hello ")]))
    (closure0, session0) =
  (closure0, {| transcript := [] ++ user_prefix ++ trim (lit " hello ") ++ [LF];
                streamSid := VNull |}).
Proof.
  apply (transcript_gains_user_line
           (obj [("type", str "transcript"); ("text", str " hello ")])
           (lit " hello ") closure0 session0); reflexivity.
Defined.

(** ** Runs of the process *)

Lemma run_snoc (events : list event) (e : event) (σ : state) :
  run (events ++ [e]) σ =
  match run events σ with Some σ' => step e σ' | None => None end.
Proof.
  revert σ. induction events as [|e' events IH]; intros σ; simpl.
  - now destruct (step e σ).
  - destruct (step e' σ); [apply IH|reflexivity].
Qed.

Lemma run_invariant (P : state -> Prop) (σ0 : state) :
  P σ0 ->
  (forall e σ σ', P σ -> step e σ = Some σ' -> P σ') ->
  forall events σ, run events σ0 = Some σ -> P σ.
Proof.
  intros H0 Hstep events. revert σ0 H0.
  induction events as [|e events IH]; intros σ0 H0 σ Hrun; simpl in Hrun.
  - now injection Hrun as <-.
  - destruct (step e σ0) as [σ1|] eqn:E; [|discriminate].
    eapply IH; [|exact Hrun]. eapply Hstep; eassumption.
Qed.

(** The connection whose socket emits an event. *)
Definition on_connection (e : event) : option nat :=
  match e with
  | IncomingCall _ _ | MediaStream _ _ => None
  | VapiOpen c | VapiMessage c _ | VapiError c | VapiClose c
  | SocketMessage c _ | SocketClose c => Some c
  end.

(** What the event does to the closure and the session object. *)
Definition moved (e : event) (ks : connection * session) : connection * session :=
  match e with
  | IncomingCall _ _ | MediaStream _ _ => ks
  | VapiOpen _ => (on_vapi_open (set_readyState OPEN (fst ks)), snd ks)
  | VapiMessage _ data => on_vapi_message data ks
  | VapiError _ => (set_readyState CLOSING (fst ks), snd ks)
  | VapiClose _ => (set_readyState CLOSED (fst ks), snd ks)
  | SocketMessage _ message => on_socket_message message ks
  | SocketClose _ => on_socket_close ks
  end.

(** What the event does to the registry. *)
Definition registry_after (e : event) (k : connection)
    (registry : gmap jsstring nat) : gmap jsstring nat :=
  match e with
  | SocketClose _ => delete (sessionId k) registry
  | _ => registry
  end.

Definition updated (c r : nat) (ks : connection * session)
    (registry : gmap jsstring nat) (σ : state) : state :=
  {| callerNumber := callerNumber σ;
     callSid := callSid σ;
     sessions := registry;
     store := <[r := snd ks]> (store σ);
     connections := <[c := fst ks]> (connections σ);
     fetched := fetched σ |}.

Ltac step_through E :=
  repeat match type of E with
         | context [if ?b then _ else _] => destruct b eqn:?
         | context [mbind _ ?m] => destruct m eqn:?; simpl in E
         | Throw _ = Normal _ => discriminate E
         | Normal _ = Normal _ => injection E as <- <-
         end.

Lemma moved_closure (e : event) (k : connection) (s : session) :
  sessionId (fst (moved e (k, s))) = sessionId k /\
  session_ref (fst (moved e (k, s))) = session_ref k.
Proof.
  destruct e as [| | |? data| | |? message|]; simpl; try (split; reflexivity).
  - unfold on_vapi_message.
    destruct (vapi_message_body data (k, s)) as [[k' s']|] eqn:E;
      simpl; [|now split].
    unfold vapi_message_body in E. simpl in E.
    destruct (JSON_parse data) as [response|]; simpl in E; [|discriminate].
    destruct (get response "type") as [type|]; simpl in E; [|discriminate].
    step_through E; now split.
  - unfold on_socket_message.
    destruct (socket_message_body message (k, s)) as [[k' s']|] eqn:E;
      simpl; [|now split].
    unfold socket_message_body in E. simpl in E.
    destruct (JSON_parse message) as [data|]; simpl in E; [|discriminate].
    destruct (get data "event") as [event|]; simpl in E; [|discriminate].
    step_through E; now split.
  - destruct (bool_decide _); now split.
Qed.

(** Every socket event is delivered to an existing connection, whose
    closure and session object it replaces by [moved]. *)
Lemma step_on_connection (e : event) (c : nat) (σ σ' : state) :
  on_connection e = Some c ->
  step e σ = Some σ' ->
  exists k,
    connections σ !! c = Some k /\
    forall s, store σ !! session_ref k = Some s ->
      σ' = updated c (session_ref k) (moved e (k, s))
             (registry_after e k (sessions σ)) σ.
Proof.
  intros Hc Hstep.
  destruct e; simpl in Hc; try discriminate; injection Hc as ->;
    unfold step, readyState_is in Hstep;
    destruct (connections σ !! c) as [k|] eqn:Hk; try discriminate;
    destruct (bool_decide _); try discriminate;
    injection Hstep as <-; exists k; (split; [reflexivity|]); intros s Hs;
    unfold socket_close, with_connection; rewrite ?Hk, ?Hs; simpl.
  all: try reflexivity.
  - now destruct (on_vapi_message data (k, s)).
  - now destruct (on_socket_message message (k, s)).
Qed.

Lemma incoming_call_frame (body query : value) (σ : state) :
  sessions (incoming_call body query σ) = sessions σ /\
  store (incoming_call body query σ) = store σ /\
  connections (incoming_call body query σ) = connections σ /\
  fetched (incoming_call body query σ) = fetched σ.
Proof.
  unfold incoming_call.
  destruct (get (or_else body query) "From") as [From|]; simpl; [|tauto].
  destruct (get (or_else body query) "CallSid"); simpl; tauto.
Qed.

Lemma updated_connection (c r : nat) ks registry (σ : state) (c' : nat) k' :
  connections (updated c r ks registry σ) !! c' = Some k' ->
  (c' = c /\ k' = fst ks) \/ (c' <> c /\ connections σ !! c' = Some k').
Proof.
  simpl. intros H. destruct (decide (c' = c)) as [->|Hne].
  - left. split; [reflexivity|].
    apply list_lookup_insert_Some in H as [(_ & -> & _)|[? _]]; congruence.
  - right. split; [assumption|]. now rewrite list_lookup_insert_ne in H.
Qed.

Lemma registry_after_lookup (e : event) (k : connection)
    (registry : gmap jsstring nat) (id : jsstring) (r : nat) :
  registry_after e k registry !! id = Some r -> registry !! id = Some r.
Proof.
  destruct e; simpl; try tauto.
  intros H. now apply lookup_delete_Some in H.
Qed.

(** ** The registry and the store *)

(** What holds of the registry in every state the process reaches: a
    registered session object is the one of some connection opened for that
    call identifier; connections that share a session object were opened
    for the same call identifier; the [session] variable of a connection
    refers to an object of the store. *)
Record well_formed (σ : state) : Prop := {
  wf_registered : forall id r,
    sessions σ !! id = Some r ->
    exists c k, connections σ !! c = Some k /\ sessionId k = id /\ session_ref k = r;
  wf_owner : forall c1 c2 k1 k2,
    connections σ !! c1 = Some k1 ->
    connections σ !! c2 = Some k2 ->
    session_ref k1 = session_ref k2 ->
    sessionId k1 = sessionId k2;
  wf_refs : forall c k,
    connections σ !! c = Some k -> is_Some (store σ !! session_ref k);
}.

Lemma well_formed_initial : well_formed initial.
Proof. split; simpl; intros *; try rewrite lookup_empty; discriminate. Qed.

Lemma well_formed_media_stream header now (σ : state) :
  well_formed σ -> well_formed (media_stream header now σ).
Proof.
  intros [Hreg Hown Href]. unfold media_stream.
  set (id := new_sessionId header now).
  destruct (sessions σ !! id) as [r|] eqn:Hid.
  - destruct (Hreg _ _ Hid) as (c0 & k0 & Hk0 & Hid0 & Hr0).
    split; simpl.
    + intros id' r' H. apply lookup_insert_Some in H as [[<- <-]|[_ H]].
      * exists c0, k0. split; [|now split].
        apply lookup_app_l_Some. exact Hk0.
      * destruct (Hreg _ _ H) as (c & k & Hk & ?). exists c, k.
        split; [now apply lookup_app_l_Some|assumption].
    + intros c1 c2 k1 k2 H1 H2.
      apply lookup_snoc_Some in H1 as [[_ H1]|[_ <-]];
        apply lookup_snoc_Some in H2 as [[_ H2]|[_ <-]]; simpl.
      * now apply (Hown c1 c2).
      * intros E. rewrite <- Hid0. apply (Hown c1 c0); congruence.
      * intros E. rewrite <- Hid0. apply (Hown c0 c2); congruence.
      * reflexivity.
    + intros c k H. apply lookup_snoc_Some in H as [[_ H]|[_ <-]]; simpl.
      * now apply (Href c).
      * rewrite <- Hr0. now apply (Href c0).
  - split; simpl.
    + intros id' r' H. apply lookup_insert_Some in H as [[<- <-]|[_ H]].
      * eexists (length (connections σ)), _.
        split; [apply lookup_snoc_Some; right; split; reflexivity|now split].
      * destruct (Hreg _ _ H) as (c & k & Hk & ?). exists c, k.
        split; [now apply lookup_app_l_Some|assumption].
    + intros c1 c2 k1 k2 H1 H2.
      apply lookup_snoc_Some in H1 as [[_ H1]|[_ <-]];
        apply lookup_snoc_Some in H2 as [[_ H2]|[_ <-]]; simpl.
      * now apply (Hown c1 c2).
      * intros E. destruct (Href _ _ H1) as [s Hs].
        apply lookup_lt_Some in Hs. lia.
      * intros E. destruct (Href _ _ H2) as [s Hs].
        apply lookup_lt_Some in Hs. lia.
      * reflexivity.
    + intros c k H. apply lookup_snoc_Some in H as [[_ H]|[_ <-]]; simpl.
      * destruct (Href _ _ H) as [s Hs]. exists s.
        now apply lookup_app_l_Some.
      * eexists. apply lookup_snoc_Some. right. split; reflexivity.
Qed.

(** A socket event keeps every closure's [sessionId] and [session]. *)
Lemma updated_back (e : event) (c : nat) (σ : state) k s (c' : nat) k' :
  connections σ !! c = Some k ->
  connections (updated c (session_ref k) (moved e (k, s))
                 (registry_after e k (sessions σ)) σ) !! c' = Some k' ->
  exists k0, connections σ !! c' = Some k0 /\
             sessionId k0 = sessionId k' /\ session_ref k0 = session_ref k'.
Proof.
  intros Hk H. apply updated_connection in H as [[-> ->]|[_ H]].
  - exists k. destruct (moved_closure e k s) as [-> ->]. now split.
  - exists k'. now split.
Qed.

Lemma updated_forth (e : event) (c : nat) (σ : state) k s (c' : nat) k0 :
  connections σ !! c = Some k ->
  connections σ !! c' = Some k0 ->
  exists k',
    connections (updated c (session_ref k) (moved e (k, s))
                   (registry_after e k (sessions σ)) σ) !! c' = Some k' /\
    sessionId k' = sessionId k0 /\ session_ref k' = session_ref k0.
Proof.
  intros Hk H0. simpl. destruct (decide (c' = c)) as [->|Hne].
  - exists (fst (moved e (k, s))). split.
    + apply list_lookup_insert_eq. now apply lookup_lt_Some in Hk.
    + destruct (moved_closure e k s) as [-> ->]. split; congruence.
  - exists k0. split; [|now split]. now rewrite list_lookup_insert_ne.
Qed.

Lemma well_formed_step (e : event) (σ σ' : state) :
  well_formed σ -> step e σ = Some σ' -> well_formed σ'.
Proof.
  intros Hwf Hstep. destruct (on_connection e) as [c|] eqn:Hc.
  - destruct (step_on_connection e c σ σ' Hc Hstep) as (k & Hk & Hupd).
    destruct (wf_refs σ Hwf c k Hk) as [s Hs]. rewrite (Hupd s Hs).
    destruct Hwf as [Hreg Hown Href]. split.
    + intros id r H. simpl in H. apply registry_after_lookup in H.
      destruct (Hreg _ _ H) as (c0 & k0 & Hk0 & <- & <-).
      destruct (updated_forth e c σ k s c0 k0 Hk Hk0) as (k' & ? & ? & ?).
      now exists c0, k'.
    + intros c1 c2 k1 k2 H1 H2 E.
      destruct (updated_back e c σ k s c1 k1 Hk H1) as (k1' & ? & <- & E1).
      destruct (updated_back e c σ k s c2 k2 Hk H2) as (k2' & ? & <- & E2).
      apply (Hown c1 c2); congruence.
    + intros c' k' H.
      destruct (updated_back e c σ k s c' k' Hk H) as (k0 & H0 & _ & <-).
      simpl. apply lookup_lt_is_Some. rewrite length_insert.
      apply lookup_lt_is_Some. now apply (Href c').
  - destruct e; try discriminate Hc; simpl in Hstep; injection Hstep as <-.
    + destruct (incoming_call_frame body query σ) as (E1 & E2 & E3 & _).
      destruct Hwf as [Hreg Hown Href].
      split; rewrite ?E1, ?E2, ?E3; assumption.
    + now apply well_formed_media_stream.
Qed.

Lemma well_formed_run (events : list event) (σ : state) :
  run events initial = Some σ -> well_formed σ.
Proof.
  apply run_invariant; [apply well_formed_initial|].
  intros e σ1 σ2. apply well_formed_step.
Qed.

(** The reading of C9 on the caller number: the call set-up of one call
    leaves alone the number stored by the set-up of another call. *)
Definition caller_numbers_isolated : Prop :=
  forall (paramsA paramsB A B : value) (σ : state),
    get paramsA "CallSid" = Normal A ->
    get paramsB "CallSid" = Normal B ->
    A <> B ->
    callerNumber (incoming_call paramsA (obj []) (incoming_call paramsB (obj []) σ)) =
    callerNumber (incoming_call paramsB (obj []) σ).

(** C9, as stated, fails: the caller number and the call identifier of the
    call set-up are process-wide variables, and the set-up of call [CA_A]
    overwrites what the set-up of call [CA_B] stored. *)
Lemma callerNumber_shared_between_calls : ~ caller_numbers_isolated.
Proof.
  intros H.
  specialize (H (obj [("From", str "+15550001"); ("CallSid", str "CA_A")])
                (obj [("From", str "+15550002"); ("CallSid", str "CA_B")])
                (str "CA_A") (str "CA_B") initial eq_refl eq_refl).
  vm_compute in H. discriminate H. intros E. discriminate E.
Qed.

(** C9, amended: in every state the process reaches, the registry gives
    different session objects for different call identifiers, and a socket
    event of a connection opened for one call identifier changes neither
    the closure, nor the session object, nor the registry entry of a
    connection opened for another, nor the two process-wide variables.
    (The caller number and the call identifier of the call set-up are those
    process-wide variables: every set-up request overwrites them.) *)
Theorem sessions_isolated (events : list event) (σ : state) :
  run events initial = Some σ ->
  (forall A B a b,
     A <> B -> sessions σ !! A = Some a -> sessions σ !! B = Some b -> a <> b) /\
  (forall e cA cB kA kB σ',
     on_connection e = Some cA ->
     connections σ !! cA = Some kA ->
     connections σ !! cB = Some kB ->
     sessionId kA <> sessionId kB ->
     step e σ = Some σ' ->
     connections σ' !! cB = Some kB /\
     store σ' !! session_ref kB = store σ !! session_ref kB /\
     sessions σ' !! sessionId kB = sessions σ !! sessionId kB /\
     callerNumber σ' = callerNumber σ /\ callSid σ' = callSid σ).
Proof.
  intros Hrun. pose proof (well_formed_run _ _ Hrun) as Hwf. split.
  - intros A B a b Hne HA HB ->.
    destruct (wf_registered σ Hwf _ _ HA) as (c1 & k1 & H1 & <- & E1).
    destruct (wf_registered σ Hwf _ _ HB) as (c2 & k2 & H2 & <- & E2).
    apply Hne. apply (wf_owner σ Hwf c1 c2); congruence.
  - intros e cA cB kA kB σ' He HA HB Hne Hstep.
    destruct (step_on_connection e cA σ σ' He Hstep) as (k & Hk & Hupd).
    assert (k = kA) as -> by congruence.
    destruct (wf_refs σ Hwf cA kA HA) as [s Hs]. rewrite (Hupd s Hs). simpl.
    assert (cB <> cA) by (intros ->; congruence).
    assert (session_ref kA <> session_ref kB).
    { intros E. apply Hne. now apply (wf_owner σ Hwf cA cB). }
    repeat split.
    + now rewrite list_lookup_insert_ne.
    + now rewrite list_lookup_insert_ne.
    + destruct e; simpl; try reflexivity. now rewrite lookup_delete_ne.
Qed.

(** Two calls, each with its media stream. *)
Definition two_calls : state :=
  media_stream (Some (lit "CA2")) 0 (media_stream (Some (lit "CA1")) 0 initial).

Lemma sessions_isolated_witness :
  sessions two_calls !! lit "CA1" = Some 0%nat /\
  sessions two_calls !! lit "CA2" = Some 1%nat /\
  0%nat <> 1%nat.
Proof.
  split; [vm_compute; reflexivity|]. split; [vm_compute; reflexivity|].
  apply (proj1 (sessions_isolated
                  [MediaStream (Some (lit "CA1")) 0; MediaStream (Some (lit "CA2")) 0]
                  two_calls eq_refl) (lit "CA1") (lit "CA2"));
    [discriminate|vm_compute; reflexivity|vm_compute; reflexivity].
Defined.

(** ** Teardown *)

Lemma on_socket_close_twice (k : connection) (s : session) :
  on_socket_close (on_socket_close (k, s)) = on_socket_close (k, s).
Proof.
  unfold on_socket_close. simpl.
  rewrite (cleanTranscript_join (cleanTranscript (transcript s))).
  rewrite kept_lines_of_clean, <- cleanTranscript_join.
  destruct (bool_decide (vapiWs_readyState k = OPEN)) eqn:E; simpl.
  - reflexivity.
  - now rewrite E.
Qed.

Lemma step_keeps_registered (e : event) (σ σ' : state) :
  (forall c, e <> SocketClose c) ->
  step e σ = Some σ' ->
  sessions σ ⊆ sessions σ'.
Proof.
  intros Hne Hstep.
  destruct e; simpl in Hstep;
    try (destruct (readyState_is _ _ σ); [|discriminate]);
    injection Hstep as <-.
  - now destruct (incoming_call_frame body query σ) as (-> & _).
  - unfold media_stream.
    destruct (sessions σ !! new_sessionId header now) as [r|] eqn:E; simpl.
    + now rewrite insert_id.
    + now apply insert_subseteq.
  - unfold with_connection. now repeat case_match.
  - unfold with_connection. now repeat case_match.
  - unfold with_connection. now repeat case_match.
  - unfold with_connection. now repeat case_match.
  - unfold with_connection. now repeat case_match.
  - now destruct (Hne c).
Qed.

Lemma socket_close_eq (σ : state) (c : nat) k s :
  connections σ !! c = Some k ->
  store σ !! session_ref k = Some s ->
  socket_close c σ =
    updated c (session_ref k) (on_socket_close (k, s))
      (delete (sessionId k) (sessions σ)) σ.
Proof.
  intros Hk Hs. unfold socket_close, with_connection. rewrite Hk, Hs.
  now destruct (on_socket_close (k, s)).
Qed.

(** C8: the close handler of a connection removes the registry entry of
    its call identifier; fired again it leaves the registry, and the whole
    state of the process, as the first firing left them; and no other event
    removes an entry. *)
Theorem socket_close_idempotent (σ : state) (c : nat) (k : connection) :
  connections σ !! c = Some k ->
  sessions (socket_close c σ) = delete (sessionId k) (sessions σ) /\
  sessions (socket_close c σ) !! sessionId k = None /\
  socket_close c (socket_close c σ) = socket_close c σ /\
  (forall e σ',
     (forall c', e <> SocketClose c') -> step e σ = Some σ' ->
     sessions σ ⊆ sessions σ').
Proof.
  intros Hk.
  assert (Hreg : sessions (socket_close c σ) = delete (sessionId k) (sessions σ)).
  { unfold socket_close, with_connection. rewrite Hk.
    now repeat case_match. }
  split; [exact Hreg|]. split; [rewrite Hreg; apply lookup_delete_eq|].
  split; [|intros e σ'; apply step_keeps_registered].
  destruct (store σ !! session_ref k) as [s|] eqn:Hs.
  - rewrite (socket_close_eq σ c k s Hk Hs).
    destruct (on_socket_close (k, s)) as [k1 s1] eqn:E1.
    assert (Hk1 : sessionId k1 = sessionId k /\ session_ref k1 = session_ref k).
    { injection E1 as <- _. now destruct (bool_decide _). }
    destruct Hk1 as [Hid Href].
    rewrite (socket_close_eq _ c k1 s1).
    + rewrite <- E1 at 1. rewrite on_socket_close_twice, E1.
      unfold updated. simpl. rewrite Hid, Href.
      now rewrite delete_delete_eq, !list_insert_insert_eq.
    + simpl. apply list_lookup_insert_eq. now apply lookup_lt_Some in Hk.
    + simpl. rewrite Href. apply list_lookup_insert_eq.
      now apply lookup_lt_Some in Hs.
  - unfold socket_close, with_connection. rewrite Hk, Hs. simpl.
    rewrite Hk, Hs. simpl. now rewrite delete_delete_eq.
Qed.

Lemma socket_close_idempotent_witness :
  socket_close 0 (socket_close 0 streaming) = socket_close 0 streaming /\
  sessions (socket_close 0 streaming) !! lit "CA1" = None.
Proof.
  pose proof (socket_close_idempotent streaming 0
                (on_vapi_open (set_readyState OPEN closure0)) eq_refl)
    as (_ & Hgone & Htwice & _).
  split; [exact Htwice|exact Hgone].
Defined.

(** ** Configure, then stream *)

(** The messages of the upstream protocol that start a session. *)
Definition is_start_message (m : value) : bool :=
  match get m "type" with
  | Normal type => is_string type "start"
  | Throw _ => false
  end.

Lemma audioMessage_not_start (payload : value) :
  is_start_message (audioMessage payload) = false.
Proof. unfold audioMessage, JSON_stringify. simpl. now destruct (defined payload). Qed.

Lemma count_start_messages (payloads : list value) :
  length (List.filter is_start_message
            (sessionUpdate :: List.map audioMessage payloads)) = 1%nat.
Proof.
  change (sessionUpdate :: List.map audioMessage payloads)
    with ([sessionUpdate] ++ List.map audioMessage payloads).
  rewrite List.filter_app, List.length_app.
  replace (List.filter is_start_message (List.map audioMessage payloads))
    with (@nil value); [reflexivity|].
  induction payloads as [|p payloads IH]; [reflexivity|].
  cbn [List.map List.filter]. now rewrite audioMessage_not_start.
Qed.

(** Apart from [open], an event leaves the upstream socket in its state or
    moves it towards [CLOSED], and sends nothing on it, except that a
    downstream [media] event on an open socket sends one [audio] message. *)
Lemma moved_upstream (e : event) (k : connection) (s : session) :
  (forall c, e <> VapiOpen c) ->
  (vapiWs_readyState (fst (moved e (k, s))) = vapiWs_readyState k \/
   vapiWs_readyState (fst (moved e (k, s))) = CLOSING \/
   vapiWs_readyState (fst (moved e (k, s))) = CLOSED) /\
  (vapiWs_sent (fst (moved e (k, s))) = vapiWs_sent k \/
   vapiWs_readyState k = OPEN /\
   exists payload,
     vapiWs_sent (fst (moved e (k, s))) = vapiWs_sent k ++ [audioMessage payload]).
Proof.
  intros Hne.
  destruct e as [| |c|? data| | |? message|]; simpl; try tauto.
  - now destruct (Hne c).
  - unfold on_vapi_message.
    destruct (vapi_message_body data (k, s)) as [[k' s']|] eqn:E;
      simpl; [|tauto].
    unfold vapi_message_body in E. simpl in E.
    destruct (JSON_parse data) as [response|]; simpl in E; [|discriminate].
    destruct (get response "type") as [type|]; simpl in E; [|discriminate].
    step_through E; simpl; tauto.
  - unfold on_socket_message.
    destruct (socket_message_body message (k, s)) as [[k' s']|] eqn:E;
      simpl; [|tauto].
    unfold socket_message_body in E. simpl in E.
    destruct (JSON_parse message) as [data|]; simpl in E; [|discriminate].
    destruct (get data "event") as [event|]; simpl in E; [|discriminate].
    step_through E; simpl; try tauto.
    split; [tauto|]. right. split; [|eauto].
    match goal with H : bool_decide _ = true |- _ =>
      now apply bool_decide_eq_true in H end.
  - destruct (bool_decide _); simpl; tauto.
Qed.

(** What the history of a run says about the upstream socket of each
    connection. *)
Definition configured (events : list event) (σ : state) : Prop :=
  forall c,
    (In (VapiOpen c) events -> is_Some (connections σ !! c)) /\
    forall k, connections σ !! c = Some k ->
      (In (VapiOpen c) events ->
         vapiWs_readyState k <> CONNECTING /\
         exists payloads,
           vapiWs_sent k = sessionUpdate :: List.map audioMessage payloads) /\
      (~ In (VapiOpen c) events ->
         vapiWs_readyState k <> OPEN /\ vapiWs_sent k = []).

Lemma media_stream_connections header now (σ : state) :
  exists k,
    connections (media_stream header now σ) = connections σ ++ [k] /\
    vapiWs_readyState k = CONNECTING /\ vapiWs_sent k = [] /\ socket_sent k = [].
Proof.
  unfold media_stream.
  destruct (sessions σ !! new_sessionId header now); simpl; eauto.
Qed.

Lemma step_open_enabled (c : nat) (σ σ' : state) k :
  step (VapiOpen c) σ = Some σ' ->
  connections σ !! c = Some k ->
  vapiWs_readyState k = CONNECTING.
Proof.
  unfold step, readyState_is. intros H Hk. rewrite Hk in H.
  destruct (bool_decide (vapiWs_readyState k ∈ [CONNECTING])) eqn:E; [|discriminate].
  apply bool_decide_eq_true in E. now apply list_elem_of_singleton in E.
Qed.

Lemma open_or_not (e : event) :
  (exists c, e = VapiOpen c) \/ (forall c, e <> VapiOpen c).
Proof. destruct e; eauto; right; discriminate. Qed.

Lemma configured_step (events : list event) (e : event) (σ σ' : state) :
  well_formed σ ->
  configured events σ ->
  step e σ = Some σ' ->
  configured (events ++ [e]) σ'.
Proof.
  intros Hwf IH Hstep c.
  assert (Hin : In (VapiOpen c) (events ++ [e]) <->
                In (VapiOpen c) events \/ e = VapiOpen c).
  { rewrite List.in_app_iff. simpl. tauto. }
  setoid_rewrite Hin. clear Hin.
  destruct (IH c) as [IHsome IHk].
  destruct (on_connection e) as [c0|] eqn:Hc.
  - destruct (step_on_connection e c0 σ σ' Hc Hstep) as (k0 & Hk0 & Hupd).
    destruct (wf_refs σ Hwf c0 k0 Hk0) as [s0 Hs0].
    rewrite (Hupd s0 Hs0). simpl.
    destruct (decide (c = c0)) as [->|Hne].
    + rewrite list_lookup_insert_eq by now apply lookup_lt_Some in Hk0.
      split; [eauto|]. intros k Hk. injection Hk as <-.
      destruct (IHk k0 Hk0) as [IHin IHout].
      destruct (open_or_not e) as [[c' ->]|Hother].
      * injection Hc as ->. simpl.
        pose proof (step_open_enabled c0 σ σ' k0 Hstep Hk0) as Hconn.
        assert (Hnot : ~ In (VapiOpen c0) events).
        { intros H. destruct (IHin H) as [Hready _]. contradiction. }
        destruct (IHout Hnot) as [_ Hsent]. split; [|tauto].
        intros _. split; [discriminate|]. exists []. simpl. now rewrite Hsent.
      * destruct (moved_upstream e k0 s0 Hother) as [Hready Hsent].
        split.
        -- intros [H|H]; [|now destruct (Hother c0)].
           destruct (IHin H) as [Hconn (payloads & Hp)]. split.
           ++ destruct Hready as [->|[->| ->]]; [assumption|discriminate..].
           ++ destruct Hsent as [->|[_ [payload ->]]]; [eauto|].
              exists (payloads ++ [payload]). rewrite Hp, List.map_app.
              reflexivity.
        -- intros Hnever. destruct IHout as [Hopen Hnil]; [tauto|]. split.
           ++ destruct Hready as [->|[->| ->]]; [assumption|discriminate..].
           ++ destruct Hsent as [->|[? _]]; [assumption|contradiction].
    + rewrite list_lookup_insert_ne by congruence.
      assert (Hnotopen : e <> VapiOpen c) by (intros ->; simpl in Hc; congruence).
      split; [intros [H|H]; [auto|contradiction]|].
      intros k Hk. destruct (IHk k Hk) as [IHin IHout].
      split; [intros [H|H]; [auto|contradiction]|]. intros H'. apply IHout. tauto.
  - assert (Hnotopen : e <> VapiOpen c) by (intros ->; discriminate Hc).
    destruct e; try discriminate Hc; simpl in Hstep; injection Hstep as <-.
    + destruct (incoming_call_frame body query σ) as (_ & _ & -> & _).
      split; [intros [H'|H']; [auto|contradiction]|].
      intros k Hk. destruct (IHk k Hk) as [IHin IHout].
      split; [intros [H'|H']; [auto|contradiction]|]. intros H'. apply IHout. tauto.
    + destruct (media_stream_connections header now σ) as (k0 & -> & Hconn & Hsent & _).
      split.
      * intros [H'|H']; [|contradiction].
        destruct (IHsome H') as [k Hk]. exists k. now apply lookup_app_l_Some.
      * intros k Hk. apply lookup_snoc_Some in Hk as [[_ Hk]|[-> <-]].
        -- destruct (IHk k Hk) as [IHin IHout].
           split; [intros [H'|H']; [auto|contradiction]|]. intros H'. apply IHout. tauto.
        -- split.
           ++ intros [H'|H']; [|contradiction].
              destruct (IHsome H') as [k Hk]. apply lookup_lt_Some in Hk. lia.
           ++ intros _. rewrite Hconn, Hsent. split; [discriminate|reflexivity].
Qed.

Lemma configured_run (events : list event) (σ : state) :
  run events initial = Some σ -> configured events σ.
Proof.
  revert σ. induction events as [|e events IH] using rev_ind; intros σ Hrun.
  - injection Hrun as <-. intros c. simpl. split; [tauto|]. discriminate.
  - rewrite run_snoc in Hrun.
    destruct (run events initial) as [σ0|] eqn:E; [|discriminate].
    eapply configured_step; [|apply IH; reflexivity|exact Hrun].
    now apply (well_formed_run events).
Qed.

(** C7: on the upstream socket of a connection, the session-start
    configuration goes out exactly once, when the socket opens, and it is
    the first message: a socket that has opened has sent the configuration
    followed by [audio] messages only, and a socket that has not opened has
    sent nothing. *)
Theorem configure_then_stream (events : list event) (σ : state)
    (c : nat) (k : connection) :
  run events initial = Some σ ->
  connections σ !! c = Some k ->
  (In (VapiOpen c) events ->
     (exists payloads,
        vapiWs_sent k = sessionUpdate :: List.map audioMessage payloads) /\
     length (List.filter is_start_message (vapiWs_sent k)) = 1%nat) /\
  (~ In (VapiOpen c) events -> vapiWs_sent k = []).
Proof.
  intros Hrun Hk.
  destruct (configured_run events σ Hrun c) as [_ H].
  destruct (H k Hk) as [Hin Hout]. split.
  - intros Hopen. destruct (Hin Hopen) as [_ (payloads & Hp)].
    split; [eauto|]. rewrite Hp. apply count_start_messages.
  - intros Hclosed. now destruct (Hout Hclosed).
Qed.

Lemma configure_then_stream_witness :
  length (List.filter is_start_message
            (vapiWs_sent (on_vapi_open (set_readyState OPEN closure0)))) = 1%nat.
Proof.
  refine (proj2 (proj1 (configure_then_stream
            [MediaStream (Some (lit "CA1")) 0; VapiOpen 0] streaming 0
            (on_vapi_open (set_readyState OPEN closure0)) _ _) _)).
  - vm_compute. reflexivity.
  - reflexivity.
  - simpl. tauto.
Defined.

(** ** Upstream audio before the stream has started *)

(** The downstream events that set the stream identifier. *)
Definition is_stream_start (e : event) : bool :=
  match e with
  | SocketMessage _ (Some data) =>
      match get data "event" with
      | Normal event => is_string event "start"
      | Throw _ => false
      end
  | _ => false
  end.

Lemma moved_streamSid (e : event) (k : connection) (s : session) :
  is_stream_start e = false ->
  streamSid (snd (moved e (k, s))) = streamSid s.
Proof.
  intros Hns.
  destruct e as [| | |? data| | |? message|]; simpl; try reflexivity.
  - unfold on_vapi_message.
    destruct (vapi_message_body data (k, s)) as [[k' s']|] eqn:E;
      simpl; [|reflexivity].
    unfold vapi_message_body in E. simpl in E.
    destruct (JSON_parse data) as [response|]; simpl in E; [|discriminate].
    destruct (get response "type") as [type|]; simpl in E; [|discriminate].
    step_through E; reflexivity.
  - unfold on_socket_message.
    destruct (socket_message_body message (k, s)) as [[k' s']|] eqn:E;
      simpl; [|reflexivity].
    unfold socket_message_body in E.
    destruct message as [data|]; simpl in E, Hns; [|discriminate].
    destruct (get data "event") as [event|]; simpl in E; [|discriminate].
    rewrite Hns in E.
    step_through E; reflexivity.
Qed.

(** The event is a [start] event delivered to a connection that holds the
    session object [r]. *)
Definition started_on (r : nat) (σ : state) (e : event) : Prop :=
  is_stream_start e = true /\
  exists c k,
    on_connection e = Some c /\ connections σ !! c = Some k /\ session_ref k = r.

(** A connection keeps its place and its session object. *)
Lemma step_keeps_session_ref (e : event) (σ σ' : state) (c : nat) (k : connection) :
  well_formed σ ->
  step e σ = Some σ' ->
  connections σ !! c = Some k ->
  exists k', connections σ' !! c = Some k' /\ session_ref k' = session_ref k.
Proof.
  intros Hwf Hstep Hk.
  destruct (on_connection e) as [c0|] eqn:Hc.
  - destruct (step_on_connection e c0 σ σ' Hc Hstep) as (k0 & Hk0 & Hupd).
    destruct (wf_refs σ Hwf c0 k0 Hk0) as [s0 Hs0]. rewrite (Hupd s0 Hs0).
    destruct (updated_forth e c0 σ k0 s0 c k Hk0 Hk) as (k' & ? & _ & ?). eauto.
  - destruct e; try discriminate Hc; simpl in Hstep; injection Hstep as <-.
    + destruct (incoming_call_frame body query σ) as (_ & _ & -> & _). eauto.
    + destruct (media_stream_connections header now σ) as (k0 & -> & _).
      exists k. split; [now apply lookup_app_l_Some|reflexivity].
Qed.

Lemma started_on_step (e e' : event) (σ σ' : state) (r : nat) :
  well_formed σ ->
  step e σ = Some σ' ->
  started_on r σ e' -> started_on r σ' e'.
Proof.
  intros Hwf Hstep [Hs (c & k & Hc & Hk & Hr)]. split; [assumption|].
  destruct (step_keeps_session_ref e σ σ' c k Hwf Hstep Hk) as (k' & Hk' & Hr').
  exists c, k'. split; [assumption|]. split; [assumption|congruence].
Qed.

(** The stream identifier of a session object is [null] until a [start]
    event is delivered to a connection that holds the object. *)
Lemma null_until_started (events : list event) (σ : state) (r : nat) (s : session) :
  run events initial = Some σ ->
  store σ !! r = Some s ->
  (forall e, In e events -> ~ started_on r σ e) ->
  streamSid s = VNull.
Proof.
  revert σ r s. induction events as [|e events IH] using rev_ind;
    intros σ r s Hrun Hs Hnone.
  - injection Hrun as <-. discriminate Hs.
  - rewrite run_snoc in Hrun.
    destruct (run events initial) as [σ0|] eqn:Hrun0; [|discriminate].
    pose proof (well_formed_run events σ0 Hrun0) as Hwf.
    assert (Hnone0 : forall e', In e' events -> ~ started_on r σ0 e').
    { intros e' Hin Hst. apply (Hnone e').
      - apply List.in_app_iff. now left.
      - now apply (started_on_step e e' σ0 σ). }
    destruct (on_connection e) as [c0|] eqn:Hc.
    + destruct (step_on_connection e c0 σ0 σ Hc Hrun) as (k0 & Hk0 & Hupd).
      destruct (wf_refs σ0 Hwf c0 k0 Hk0) as [s0 Hs0].
      rewrite (Hupd s0 Hs0) in Hs. simpl in Hs.
      apply list_lookup_insert_Some in Hs as [(Hr & <- & _)|[Hr Hs]];
        [|now apply (IH σ0 r s eq_refl Hs Hnone0)].
      destruct (is_stream_start e) eqn:Hstart.
      * exfalso. apply (Hnone e).
        -- apply List.in_app_iff. right. now left.
        -- split; [assumption|].
           destruct (step_keeps_session_ref e σ0 σ c0 k0 Hwf Hrun Hk0)
             as (k' & Hk' & Hr').
           exists c0, k'. split; [assumption|]. split; [assumption|congruence].
      * rewrite moved_streamSid by assumption.
        apply (IH σ0 r s0 eq_refl); [congruence|assumption].
    + destruct e; try discriminate Hc; simpl in Hrun; injection Hrun as <-.
      * destruct (incoming_call_frame body query σ0) as (_ & E & _).
        rewrite E in Hs. now apply (IH σ0 r s eq_refl Hs Hnone0).
      * unfold media_stream in Hs.
        destruct (sessions σ0 !! new_sessionId header now); simpl in Hs.
        -- now apply (IH σ0 r s eq_refl Hs Hnone0).
        -- apply lookup_snoc_Some in Hs as [[_ Hs]|[_ <-]]; [|reflexivity].
           now apply (IH σ0 r s eq_refl Hs Hnone0).
Qed.

(** An upstream [audio] event on a connection whose session has no stream
    identifier yet. *)
Lemma audio_with_null_streamSid (σ : state) (c : nat) (k : connection)
    (s : session) (response chunk : value) :
  connections σ !! c = Some k ->
  store σ !! session_ref k = Some s ->
  streamSid s = VNull ->
  vapiWs_readyState k = OPEN \/ vapiWs_readyState k = CLOSING ->
  get response "type" = Normal (str "audio") ->
  get response "chunk" = Normal chunk ->
  defined chunk = true ->
  let message :=
    obj [("event", str "media"); ("streamSid", VNull);
         ("media", obj [("payload", chunk)])] in
  vapi_message_body (Some response) (k, s) = Normal (socket_send message k, s) /\
  step (VapiMessage c (Some response)) σ =
    Some (set_connection c (socket_send message k) σ).
Proof.
  intros Hk Hs Hnull Hready Htype Hchunk Hdef message.
  assert (Hbody : vapi_message_body (Some response) (k, s) =
                  Normal (socket_send message k, s)).
  { unfold vapi_message_body. simpl. rewrite Htype. simpl. rewrite Hchunk. simpl.
    unfold audioDelta, JSON_stringify. simpl. rewrite Hnull, Hdef. reflexivity. }
  split; [assumption|].
  unfold step, readyState_is. rewrite Hk.
  rewrite bool_decide_eq_true_2 by (destruct Hready as [-> | ->]; set_solver).
  erewrite with_connection_eq;
    [|exact Hk|exact Hs|unfold on_vapi_message; now rewrite Hbody].
  now rewrite set_session_same.
Qed.

(** C10: as long as no downstream [start] event has been delivered to a
    connection that holds the session of this connection, whatever the
    other sessions of the process have seen, the stream identifier of the
    session is still [null], and an upstream [audio] event is not dropped:
    the body of the handler ends normally and a [media] message with the
    chunk goes downstream, its [streamSid] being [null]. *)
Theorem audio_before_start_has_null_streamSid (events : list event) (σ : state)
    (c : nat) (k : connection) (response chunk : value) :
  run events initial = Some σ ->
  connections σ !! c = Some k ->
  (forall e, In e events -> ~ started_on (session_ref k) σ e) ->
  vapiWs_readyState k = OPEN \/ vapiWs_readyState k = CLOSING ->
  get response "type" = Normal (str "audio") ->
  get response "chunk" = Normal chunk ->
  defined chunk = true ->
  let message :=
    obj [("event", str "media"); ("streamSid", VNull);
         ("media", obj [("payload", chunk)])] in
  exists s,
    store σ !! session_ref k = Some s /\
    streamSid s = VNull /\
    vapi_message_body (Some response) (k, s) = Normal (socket_send message k, s) /\
    step (VapiMessage c (Some response)) σ =
      Some (set_connection c (socket_send message k) σ).
Proof.
  intros Hrun Hk Hnone Hready Htype Hchunk Hdef message.
  pose proof (well_formed_run _ _ Hrun) as Hwf.
  destruct (wf_refs σ Hwf c k Hk) as [s Hs]. exists s.
  pose proof (null_until_started events σ (session_ref k) s Hrun Hs Hnone) as Hnull.
  split; [assumption|]. split; [assumption|].
  now apply audio_with_null_streamSid.
Qed.

(** A second call, whose media stream connects after the stream of a first
    call has started. *)
Definition closure1 : connection :=
  {| sessionId := lit "CA2"; session_ref := 1;
     vapiWs_readyState := CONNECTING; vapiWs_sent := []; socket_sent := [] |}.
Definition second_call_events : list event :=
  [MediaStream (Some (lit "CA1")) 0;
   SocketMessage 0 (Some (start_event (str "SS1")));
   MediaStream (Some (lit "CA2")) 0;
   VapiOpen 1].
Definition second_call : state :=
  with_connection 1
    (fun ks => (on_vapi_open (set_readyState OPEN (fst ks)), snd ks))
    (media_stream (Some (lit "CA2")) 0
       (with_connection 0 (on_socket_message (Some (start_event (str "SS1"))))
          connecting)).

Lemma audio_before_start_witness :
  step (VapiMessage 1 (Some (obj [("type", str "audio"); ("chunk", str "xyz")])))
    second_call =
  Some (set_connection 1
          (socket_send
             (obj [("event", str "media"); ("streamSid", VNull);
                   ("media", obj [("payload", str "xyz")])])
             (on_vapi_open (set_readyState OPEN closure1)))
          second_call).
Proof.
  destruct (audio_before_start_has_null_streamSid
              second_call_events second_call 1
              (on_vapi_open (set_readyState OPEN closure1))
              (obj [("type", str "audio"); ("chunk", str "xyz")]) (str "xyz"))
    as (s & _ & _ & _ & H);
    [vm_compute; reflexivity|vm_compute; reflexivity| |left; reflexivity
    |reflexivity|reflexivity|reflexivity|exact H].
  intros e Hin [Hstart (c' & k' & Hc & Hk' & Hr)].
  destruct Hin as [<-|[<-|[<-|[<-|[]]]]]; try discriminate Hstart.
  injection Hc as <-. vm_compute in Hk'. injection Hk' as <-.
  discriminate Hr.
Defined.

(** ** Session end and post-call extraction *)

Lemma step_fetched (e : event) (σ σ' : state) :
  step e σ = Some σ' -> fetched σ' = fetched σ.
Proof.
  intros Hstep.
  destruct e; simpl in Hstep;
    try (destruct (readyState_is _ _ σ); [|discriminate]);
    injection Hstep as <-.
  - now destruct (incoming_call_frame body query σ) as (_ & _ & _ & ->).
  - unfold media_stream. now case_match.
  - unfold with_connection. now repeat case_match.
  - unfold with_connection. now repeat case_match.
  - unfold with_connection. now repeat case_match.
  - unfold with_connection. now repeat case_match.
  - unfold with_connection. now repeat case_match.
  - unfold socket_close, with_connection. now repeat case_match.
Qed.

Lemma run_never_fetches (events : list event) (σ : state) :
  run events initial = Some σ -> fetched σ = [].
Proof.
  apply (run_invariant (fun σ => fetched σ = [])); [reflexivity|].
  intros e σ1 σ2 H1 Hstep. now rewrite (step_fetched e σ1 σ2 Hstep).
Qed.

(** One whole call: the media stream connects, the upstream socket opens,
    the caller says hello, the telephony peer hangs up. *)
Definition one_call : list event :=
  [MediaStream (Some (lit "CA1")) 0;
   VapiOpen 0;
   VapiMessage 0 (Some (obj [("type", str "transcript"); ("text", str " hello ")]));
   SocketClose 0].

(** C1 does not hold of the code: at the end of [one_call] the transcript
    of the session is the cleaned one and the session is gone from the
    registry, but no extraction request has been made; no run of the
    process ever makes one, since no handler calls
    [processTranscriptAndSend]; and that function, were it called, would
    make none either and leave the process as it is, since it stops at the
    undeclared credential. *)
Theorem session_end_makes_no_extraction_request :
  (exists σ,
     run one_call initial = Some σ /\
     transcript <$> store σ !! 0%nat =
       Some (cleanTranscript (user_prefix ++ lit "hello" ++ [LF])) /\
     sessions σ !! lit "CA1" = None /\
     fetched σ = []) /\
  (forall events σ, run events initial = Some σ -> fetched σ = []) /\
  (forall transcript reply σ, processTranscriptAndSend transcript reply σ = σ).
Proof.
  split; [|split; [apply run_never_fetches|reflexivity]].
  eexists. split; [vm_compute; reflexivity|].
  split; [vm_compute; reflexivity|]. split; vm_compute; reflexivity.
Qed.

(** * Further properties of the code *)

(** ** More on the transcript cleaner *)

Section includes_split.

Variable sep : Z.
Variable needle : jsstring.
Hypothesis needle_nonempty : needle <> [].
Hypothesis needle_without_sep : ~ In sep needle.

Lemma startsWith_app_sep (a b : jsstring) :
  startsWith needle (a ++ sep :: b) = startsWith needle a.
Proof.
  clear needle_nonempty. revert a.
  induction needle as [|x n IH]; intros a; [now destruct a|].
  destruct a as [|y a]; simpl.
  - destruct (Z.eqb_spec x sep) as [->|_]; [|reflexivity].
    exfalso. apply needle_without_sep. now left.
  - rewrite IH; [reflexivity|]. intros H. apply needle_without_sep. now right.
Qed.

Lemma includes_nil : includes needle [] = false.
Proof. destruct needle; [contradiction|reflexivity]. Qed.

(** An occurrence of the needle lies on one side of a separator. *)
Lemma includes_app_sep (a b : jsstring) :
  includes needle (a ++ sep :: b) = includes needle a || includes needle b.
Proof.
  induction a as [|y a IH].
  - rewrite includes_nil. simpl app.
    change (includes needle (sep :: b))
      with (startsWith needle ([] ++ sep :: b) || includes needle b).
    rewrite startsWith_app_sep. now destruct needle.
  - change (includes needle ((y :: a) ++ sep :: b))
      with (startsWith needle ((y :: a) ++ sep :: b) || includes needle (a ++ sep :: b)).
    rewrite startsWith_app_sep, IH. simpl. now rewrite orb_assoc.
Qed.

Lemma includes_join (pieces : list jsstring) :
  includes needle (join [sep; sep] pieces) = existsb (includes needle) pieces.
Proof.
  induction pieces as [|p [|q rest] IH].
  - apply includes_nil.
  - simpl. now rewrite orb_false_r.
  - change (join [sep; sep] (p :: q :: rest))
      with (p ++ sep :: ([] ++ sep :: join [sep; sep] (q :: rest))).
    rewrite !includes_app_sep, IH, includes_nil. reflexivity.
Qed.

End includes_split.

(** The lines of a text made of [pieces] joined by a blank line. *)
Fixpoint blank_separated (pieces : list jsstring) : list jsstring :=
  match pieces with
  | [] => [[]]
  | [piece] => [piece]
  | piece :: rest => piece :: [] :: blank_separated rest
  end.

Lemma split_join (sep : Z) (pieces : list jsstring) :
  Forall (fun piece => ~ In sep piece) pieces ->
  split sep (join [sep; sep] pieces) = blank_separated pieces.
Proof.
  induction pieces as [|p [|q rest] IH]; intros Hall.
  - reflexivity.
  - inversion Hall; subst. now apply split_without_sep.
  - inversion Hall as [|? ? Hp Hrest]; subst.
    change (join [sep; sep] (p :: q :: rest))
      with (p ++ sep :: ([] ++ sep :: join [sep; sep] (q :: rest))).
    rewrite !split_app_sep, split_without_sep by assumption.
    rewrite IH by assumption. reflexivity.
Qed.

Lemma kept_lines_without_LF (T : jsstring) :
  Forall (fun line => ~ In LF line) (List.filter kept (split LF T)).
Proof.
  eapply List.Forall_impl; [|apply kept_lines]. now intros line [H _].
Qed.

Lemma blank_separated_length (pieces : list jsstring) :
  pieces <> [] ->
  length (blank_separated pieces) = (2 * length pieces - 1)%nat.
Proof.
  induction pieces as [|p [|q rest] IH]; intros Hne; [contradiction|reflexivity|].
  change (blank_separated (p :: q :: rest))
    with (p :: [] :: blank_separated (q :: rest)).
  cbn [length]. rewrite IH by discriminate. cbn [length]. lia.
Qed.

(** X1: the cleaned transcript never contains the placeholder, anywhere. *)
Theorem cleanTranscript_without_placeholder (T : jsstring) :
  includes placeholder (cleanTranscript T) = false.
Proof.
  rewrite cleanTranscript_join, includes_join.
  - induction (split LF T) as [|line lines IH]; [reflexivity|].
    simpl. destruct (kept line) eqn:E; [|exact IH].
    simpl. rewrite IH, orb_false_r.
    unfold kept in E. apply andb_true_iff in E as [E _].
    now apply negb_true_iff in E.
  - discriminate.
  - vm_compute. intuition discriminate.
Qed.

(** X2: the cleaned transcript is laid out as the kept lines with one empty
    line between each two: with [n] kept lines, [n > 0], it has [2n - 1]
    lines; with none it is the empty string. *)
Theorem cleanTranscript_layout (T : jsstring) :
  split LF (cleanTranscript T) = blank_separated (List.filter kept (split LF T)) /\
  (List.filter kept (split LF T) <> [] ->
   length (split LF (cleanTranscript T)) =
     (2 * length (List.filter kept (split LF T)) - 1)%nat) /\
  (List.filter kept (split LF T) = [] -> cleanTranscript T = []).
Proof.
  assert (Hsplit : split LF (cleanTranscript T) =
                   blank_separated (List.filter kept (split LF T))).
  { rewrite cleanTranscript_join. apply split_join, kept_lines_without_LF. }
  split; [exact Hsplit|]. split.
  - intros Hne. rewrite Hsplit. now apply blank_separated_length.
  - intros Hnil. rewrite cleanTranscript_join, Hnil. reflexivity.
Qed.

(** X3: the texts cleaning leaves as they are are exactly the texts made
    of kept lines joined by a blank line. *)
Theorem cleanTranscript_fixed_points (T : jsstring) :
  cleanTranscript T = T <->
  exists lines,
    Forall (fun line => ~ In LF line /\ kept line = true) lines /\
    T = join [LF; LF] lines.
Proof.
  split.
  - intros H. exists (List.filter kept (split LF T)).
    split; [apply kept_lines|]. now rewrite <- cleanTranscript_join.
  - intros (lines & Hall & ->). rewrite cleanTranscript_join. f_equal.
    now apply filter_split_join.
Qed.

Lemma filter_nil_iff {A} (f : A -> bool) (l : list A) :
  List.filter f l = [] <-> forall x, In x l -> f x = false.
Proof.
  induction l as [|x l IH]; simpl; [tauto|].
  destruct (f x) eqn:E.
  - split; [discriminate|]. intros H. specialize (H x (or_introl eq_refl)). congruence.
  - rewrite IH. split.
    + intros H y [<-|Hy]; auto.
    + intros H y Hy. apply H. now right.
Qed.

Lemma join_nil (sep : jsstring) (pieces : list jsstring) :
  Forall (fun piece => nonEmpty piece = true) pieces ->
  join sep pieces = [] -> pieces = [].
Proof.
  intros Hall H. destruct pieces as [|p rest]; [reflexivity|].
  inversion Hall as [|? ? Hp _]; subst.
  destruct p as [|c p]; [discriminate Hp|].
  destruct rest; discriminate H.
Qed.

Lemma kept_false_iff (line : jsstring) :
  kept line = false <-> includes placeholder line = true \/ trim line = [].
Proof.
  unfold kept. rewrite andb_false_iff, negb_false_iff.
  destruct (trim line); simpl; intuition discriminate.
Qed.

(** X4: the cleaned transcript is empty exactly when every line of the
    transcript contains the placeholder or is blank. *)
Theorem cleanTranscript_empty_iff (T : jsstring) :
  cleanTranscript T = [] <->
  forall line, In line (split LF T) ->
    includes placeholder line = true \/ trim line = [].
Proof.
  rewrite cleanTranscript_join. split.
  - intros H line Hin. apply kept_false_iff.
    apply join_nil in H.
    + now apply (proj1 (filter_nil_iff kept (split LF T)) H).
    + eapply List.Forall_impl; [|apply kept_lines].
      intros l [_ Hk]. now apply kept_nonEmpty.
  - intros H. replace (List.filter kept (split LF T)) with (@nil jsstring); [reflexivity|].
    symmetry. apply filter_nil_iff. intros line Hin. apply kept_false_iff. auto.
Qed.

Lemma blank_separated_last (pieces front : list jsstring) :
  Forall (fun piece => nonEmpty piece = true) pieces ->
  blank_separated pieces = front ++ [[]] ->
  pieces = [] /\ front = [].
Proof.
  revert front. induction pieces as [|p [|q rest] IH]; intros front Hall H.
  - destruct front as [|? [|? ?]]; [now split|discriminate H..].
  - inversion Hall as [|? ? Hp _]; subst.
    destruct front as [|? [|? ?]]; simpl in H; try discriminate H.
    injection H as ->. discriminate Hp.
  - inversion Hall as [|? ? Hp Hrest]; subst.
    change (blank_separated (p :: q :: rest))
      with (p :: [] :: blank_separated (q :: rest)) in H.
    destruct front as [|a [|b front]]; simpl in H; try discriminate H.
    + injection H as _ H. destruct rest; discriminate H.
    + injection H as _ _ H. destruct (IH front Hrest H) as [Hnil _]. discriminate Hnil.
Qed.

(** X5: the cleaned transcript neither starts nor ends with a line feed. *)
Theorem cleanTranscript_no_outer_line_feed (T : jsstring) :
  (forall rest, cleanTranscript T <> LF :: rest) /\
  (forall front, cleanTranscript T <> front ++ [LF]).
Proof.
  assert (Hall : Forall (fun piece => nonEmpty piece = true)
                   (List.filter kept (split LF T))).
  { eapply List.Forall_impl; [|apply kept_lines].
    intros l [_ Hk]. now apply kept_nonEmpty. }
  pose proof (split_join LF _ (kept_lines_without_LF T)) as Hsplit.
  rewrite <- cleanTranscript_join in Hsplit.
  split.
  - intros rest H. rewrite H in Hsplit.
    change (LF :: rest) with ([] ++ LF :: rest) in Hsplit.
    rewrite split_app_sep in Hsplit. simpl in Hsplit.
    destruct (List.filter kept (split LF T)) as [|p [|q r]];
      simpl in Hsplit.
    + injection Hsplit as Hs. now apply split_nonempty in Hs.
    + inversion Hall as [|? ? Hp _]; subst. injection Hsplit as <- _. discriminate Hp.
    + inversion Hall as [|? ? Hp _]; subst. injection Hsplit as <- _. discriminate Hp.
  - intros front H. rewrite H in Hsplit.
    rewrite split_app_sep in Hsplit. simpl in Hsplit. symmetry in Hsplit.
    destruct (blank_separated_last _ _ Hall Hsplit) as [_ Hfront].
    now apply split_nonempty in Hfront.
Qed.

Lemma kept_lines_app (a b : jsstring) :
  List.filter kept (split LF (a ++ LF :: b)) =
  List.filter kept (split LF a) ++ List.filter kept (split LF b).
Proof. now rewrite split_app_sep, List.filter_app. Qed.

(** X6: cleaning goes line by line, so it can be done in parts: cleaning
    two texts that meet at a line feed gives what cleaning their cleaned
    versions, put together the same way, gives. *)
Theorem cleanTranscript_in_parts (a b : jsstring) :
  cleanTranscript (a ++ LF :: b) =
  cleanTranscript (cleanTranscript a ++ LF :: cleanTranscript b).
Proof.
  rewrite (cleanTranscript_join (a ++ LF :: b)).
  rewrite (cleanTranscript_join (cleanTranscript a ++ LF :: cleanTranscript b)).
  now rewrite !kept_lines_app, !kept_lines_of_clean.
Qed.

(** ** More on the two message handlers *)

Lemma prefixes_without_LF : ~ In LF user_prefix /\ ~ In LF agent_prefix.
Proof. split; vm_compute; intuition discriminate. Qed.

(** Appending one complete line to a text made of complete lines. *)
Lemma split_append_line (T line : jsstring) (before : list jsstring) :
  ~ In LF line ->
  split LF T = before ++ [[]] ->
  split LF (T ++ line ++ [LF]) = before ++ [line; []].
Proof.
  intros Hline Hbefore.
  destruct (split_app_without_sep LF T line Hline) as (pieces & piece & Hs & Hsplit).
  rewrite Hbefore in Hs. apply app_inj_tail in Hs as [? ?]. subst.
  replace (T ++ line ++ [LF]) with ((T ++ line) ++ LF :: [])
    by now rewrite <- List.app_assoc.
  rewrite split_app_sep, Hsplit. simpl. now rewrite <- List.app_assoc.
Qed.

(** X7: an agent line that contains the placeholder is written to the
    transcript and cleaned away at the end: when the transcript so far is
    made of complete lines, the cleaned transcript is what it would be had
    the event not arrived. *)
Theorem placeholder_agent_line_cleaned_away (response : value) (t : jsstring)
    (k : connection) (s : session) (before : list jsstring) :
  get response "type" = Normal (str "assistant_response") ->
  get response "text" = Normal (VString t) ->
  includes placeholder (agent_prefix ++ t) = true ->
  ~ In LF t ->
  split LF (transcript s) = before ++ [[]] ->
  transcript (snd (on_vapi_message (Some response) (k, s))) =
    transcript s ++ agent_prefix ++ t ++ [LF] /\
  cleanTranscript (transcript (snd (on_vapi_message (Some response) (k, s)))) =
    cleanTranscript (transcript s).
Proof.
  intros Htype Htext Hinc Ht Hbefore.
  assert (Hafter : transcript (snd (on_vapi_message (Some response) (k, s))) =
                   transcript s ++ agent_prefix ++ t ++ [LF]).
  { unfold on_vapi_message, vapi_message_body. simpl.
    rewrite Htype. simpl. rewrite Htext. reflexivity. }
  split; [exact Hafter|]. rewrite Hafter, !cleanTranscript_join. f_equal.
  replace (transcript s ++ agent_prefix ++ t ++ [LF])
    with (transcript s ++ (agent_prefix ++ t) ++ [LF])
    by now rewrite <- !List.app_assoc.
  rewrite (split_append_line (transcript s) (agent_prefix ++ t) before);
    [|rewrite List.in_app_iff; destruct prefixes_without_LF; tauto|assumption].
  assert (Hk : kept (agent_prefix ++ t) = false) by (unfold kept; now rewrite Hinc).
  rewrite Hbefore, !List.filter_app. f_equal.
  change (List.filter kept [agent_prefix ++ t; []])
    with (if kept (agent_prefix ++ t)
          then (agent_prefix ++ t) :: List.filter kept [[]]
          else List.filter kept [[]]).
  now rewrite Hk.
Qed.

Lemma placeholder_agent_line_cleaned_away_witness :
  cleanTranscript
    (transcript
       (snd (on_vapi_message
               (Some (obj [("type", str "assistant_response");
                           ("text", str "Agent message not found")]))
               (closure0, {| transcript := user_prefix ++ lit "hello" ++ [LF];
                             streamSid := VNull |})))) =
  cleanTranscript (user_prefix ++ lit "hello" ++ [LF]).
Proof.
  refine (proj2 (placeholder_agent_line_cleaned_away
            (obj [("type", str "assistant_response");
                  ("text", str "Agent message not found")])
            (lit "Agent message not found") closure0
            {| transcript := user_prefix ++ lit "hello" ++ [LF]; streamSid := VNull |}
            [user_prefix ++ lit "hello"] _ _ _ _ _));
    try reflexivity.
  vm_compute. intuition discriminate.
Defined.

(** X8: an upstream event that has no [text].  A [transcript] event throws
    inside the handler and leaves the transcript as it is; an
    [assistant_response] event writes the line ["Agent: undefined"] after
    the speaker emoji. *)
Theorem message_without_text (response : value) (k : connection) (s : session) :
  get response "text" = Normal VUndefined ->
  (get response "type" = Normal (str "transcript") ->
     vapi_message_body (Some response) (k, s) = Throw TypeError /\
     on_vapi_message (Some response) (k, s) = (k, s)) /\
  (get response "type" = Normal (str "assistant_response") ->
     on_vapi_message (Some response) (k, s) =
       (k, {| transcript := transcript s ++ agent_prefix ++ lit "undefined" ++ [LF];
              streamSid := streamSid s |})).
Proof.
  intros Htext. split; intros Htype.
  - assert (H : vapi_message_body (Some response) (k, s) = Throw TypeError).
    { unfold vapi_message_body. simpl. rewrite Htype. simpl. now rewrite Htext. }
    split; [exact H|]. unfold on_vapi_message. now rewrite H.
  - unfold on_vapi_message, vapi_message_body. simpl.
    rewrite Htype. simpl. now rewrite Htext.
Qed.

Lemma message_without_text_witness :
  on_vapi_message (Some (obj [("type", str "transcript")])) (closure0, session0) =
    (closure0, session0) /\
  on_vapi_message (Some (obj [("type", str "assistant_response")])) (closure0, session0) =
    (closure0, {| transcript := [] ++ agent_prefix ++ lit "undefined" ++ [LF];
                  streamSid := VNull |}).
Proof.
  split.
  - apply (proj1 (message_without_text (obj [("type", str "transcript")])
                    closure0 session0 eq_refl)). reflexivity.
  - apply (proj2 (message_without_text (obj [("type", str "assistant_response")])
                    closure0 session0 eq_refl)). reflexivity.
Defined.

(** X9: a [start] event whose [start] object has no [streamSid] sets the
    stream identifier to [undefined], and the [media] messages sent
    downstream from then on have no [streamSid] property at all. *)
Theorem start_without_streamSid (data start response chunk : value)
    (k : connection) (s : session) :
  get data "event" = Normal (str "start") ->
  get data "start" = Normal start ->
  get start "streamSid" = Normal VUndefined ->
  get response "type" = Normal (str "audio") ->
  get response "chunk" = Normal chunk ->
  defined chunk = true ->
  on_vapi_message (Some response) (on_socket_message (Some data) (k, s)) =
    (socket_send (obj [("event", str "media"); ("media", obj [("payload", chunk)])]) k,
     {| transcript := transcript s; streamSid := VUndefined |}).
Proof.
  intros Hev Hstart Hsid Htype Hchunk Hdef.
  unfold on_socket_message, socket_message_body. simpl.
  rewrite Hev. simpl. rewrite Hstart. simpl. rewrite Hsid. simpl.
  unfold on_vapi_message, vapi_message_body. simpl.
  rewrite Htype. simpl. rewrite Hchunk. simpl.
  unfold audioDelta, JSON_stringify. simpl. now rewrite Hdef.
Qed.

Lemma start_without_streamSid_witness :
  on_vapi_message (Some (obj [("type", str "audio"); ("chunk", str "xyz")]))
    (on_socket_message (Some (obj [("event", str "start"); ("start", obj [])]))
       (closure0, session0)) =
  (socket_send (obj [("event", str "media"); ("media", obj [("payload", str "xyz")])])
     closure0,
   {| transcript := []; streamSid := VUndefined |}).
Proof.
  apply (start_without_streamSid
           (obj [("event", str "start"); ("start", obj [])]) (obj [])
           (obj [("type", str "audio"); ("chunk", str "xyz")]) (str "xyz"));
    reflexivity.
Defined.

Lemma text_lines_of_clean (T : jsstring) :
  text_lines (cleanTranscript T) = List.filter kept (split LF T).
Proof.
  rewrite cleanTranscript_join. unfold text_lines.
  apply filter_split_join; [reflexivity|].
  eapply List.Forall_impl; [|apply kept_lines].
  intros line [Hlf Hk]. split; [assumption|now apply kept_nonEmpty].
Qed.

Lemma trimStart_snoc (c : Z) (l : jsstring) :
  isWhiteSpace c = false -> nonEmpty (trimStart (l ++ [c])) = true.
Proof.
  intros Hc. induction l as [|y l IH]; simpl.
  - now rewrite Hc.
  - now destruct (isWhiteSpace y).
Qed.

(** A text that starts with a code unit that is not white space is not
    blank. *)
Lemma trim_nonblank (c : Z) (x : jsstring) :
  isWhiteSpace c = false -> nonEmpty (trim (c :: x)) = true.
Proof.
  intros Hc. unfold trim. simpl trimStart. rewrite Hc.
  unfold trimEnd. simpl rev.
  pose proof (trimStart_snoc c (rev x) Hc) as H.
  destruct (trimStart (rev x ++ [c])) as [|y l]; [discriminate H|].
  simpl. now destruct (rev l).
Qed.

(** X10: the line written for a user text reaches the cleaned transcript
    verbatim, also when the text is empty or blank: when the transcript so
    far is made of complete lines and the line has neither a line feed nor
    the placeholder in it, the text lines of the cleaned transcript are the
    ones there were, followed by that line. *)
Theorem user_line_survives_cleaning (response : value) (t : jsstring)
    (k : connection) (s : session) (before : list jsstring) :
  get response "type" = Normal (str "transcript") ->
  get response "text" = Normal (VString t) ->
  ~ In LF (trim t) ->
  includes placeholder (user_prefix ++ trim t) = false ->
  split LF (transcript s) = before ++ [[]] ->
  text_lines (cleanTranscript (transcript (snd (on_vapi_message (Some response) (k, s))))) =
    text_lines (cleanTranscript (transcript s)) ++ [user_prefix ++ trim t].
Proof.
  intros Htype Htext Hlf Hinc Hbefore.
  assert (Hafter : transcript (snd (on_vapi_message (Some response) (k, s))) =
                   transcript s ++ user_prefix ++ trim t ++ [LF]).
  { unfold on_vapi_message, vapi_message_body. simpl.
    rewrite Htype. simpl. rewrite Htext. reflexivity. }
  rewrite Hafter, !text_lines_of_clean.
  replace (transcript s ++ user_prefix ++ trim t ++ [LF])
    with (transcript s ++ (user_prefix ++ trim t) ++ [LF])
    by now rewrite <- !List.app_assoc.
  rewrite (split_append_line (transcript s) (user_prefix ++ trim t) before);
    [|rewrite List.in_app_iff; destruct prefixes_without_LF; tauto|assumption].
  assert (Hk : kept (user_prefix ++ trim t) = true).
  { unfold kept. rewrite Hinc. simpl negb. rewrite andb_true_l.
    apply (trim_nonblank 0xD83D). reflexivity. }
  rewrite Hbefore, !List.filter_app.
  change (List.filter kept [user_prefix ++ trim t; []])
    with (if kept (user_prefix ++ trim t)
          then (user_prefix ++ trim t) :: List.filter kept [[]]
          else List.filter kept [[]]).
  rewrite Hk. change (List.filter kept [[]]) with (@nil jsstring).
  now rewrite List.app_nil_r.
Qed.

Lemma user_line_survives_cleaning_witness :
  text_lines
    (cleanTranscript
       (transcript
          (snd (on_vapi_message
                  (Some (obj [("type", str "transcript"); ("text", str "  ")]))
                  (closure0, session0))))) =
  text_lines (cleanTranscript []) ++ [user_prefix ++ trim (lit "  ")].
Proof.
  apply (user_line_survives_cleaning
           (obj [("type", str "transcript"); ("text", str "  ")]) (lit "  ")
           closure0 session0 []); try reflexivity.
  vm_compute. tauto.
Defined.

(** ** Messages the handlers discard *)

Lemma with_connection_unchanged (c : nat) handler (σ : state) k s :
  connections σ !! c = Some k ->
  store σ !! session_ref k = Some s ->
  handler (k, s) = (k, s) ->
  with_connection c handler σ = σ.
Proof.
  intros Hk Hs Hh. rewrite (with_connection_eq c handler σ k s k s Hk Hs Hh).
  rewrite set_session_same by assumption. now apply set_connection_same.
Qed.

(** The downstream messages that change nothing: a text that is not JSON,
    the JSON [null], a [media] event without a [media] object (when the
    upstream socket is open), a [start] event without a [start] object,
    and an event of any other kind. *)
Inductive discarded_by_socket (k : connection) : option value -> Prop :=
| socket_not_JSON : discarded_by_socket k None
| socket_null : discarded_by_socket k (Some VNull)
| socket_media_without_media data :
    get data "event" = Normal (str "media") ->
    vapiWs_readyState k = OPEN ->
    get data "media" = Normal VUndefined ->
    discarded_by_socket k (Some data)
| socket_start_without_start data :
    get data "event" = Normal (str "start") ->
    get data "start" = Normal VUndefined ->
    discarded_by_socket k (Some data)
| socket_other_kind data event :
    get data "event" = Normal event ->
    is_string event "media" = false ->
    is_string event "start" = false ->
    discarded_by_socket k (Some data).

(** X11: a downstream message of one of these kinds leaves the whole
    process as it was: nothing is sent, the session is untouched, the
    connection stays. *)
Theorem downstream_discards (σ : state) (c : nat) (k : connection)
    (s : session) (message : option value) :
  connections σ !! c = Some k ->
  store σ !! session_ref k = Some s ->
  discarded_by_socket k message ->
  step (SocketMessage c message) σ = Some σ.
Proof.
  intros Hk Hs Hd. unfold step. rewrite (readyState_is_all _ _ _ Hk). f_equal.
  apply (with_connection_unchanged c _ σ k s Hk Hs).
  unfold on_socket_message, socket_message_body.
  destruct Hd as [| |data Hev Hopen Hmedia|data Hev Hstart|data event Hev Hm Hst];
    simpl; try reflexivity.
  - rewrite Hev. simpl. rewrite bool_decide_eq_true_2 by assumption.
    now rewrite Hmedia.
  - rewrite Hev. simpl. now rewrite Hstart.
  - rewrite Hev. simpl. now rewrite Hm, Hst.
Qed.

Lemma downstream_discards_witness :
  step (SocketMessage 0 None) streaming = Some streaming /\
  step (SocketMessage 0 (Some (obj [("event", str "media")]))) streaming = Some streaming /\
  step (SocketMessage 0 (Some (obj [("event", str "stop")]))) streaming = Some streaming.
Proof.
  split; [|split];
    apply (downstream_discards streaming 0
             (on_vapi_open (set_readyState OPEN closure0)) session0);
    try reflexivity.
  - apply socket_not_JSON.
  - now apply socket_media_without_media.
  - now apply (socket_other_kind _ _ (str "stop")).
Defined.

(** The upstream messages that change nothing: a text that is not JSON,
    the JSON [null], a [transcript] event whose text is not a string, and
    an event of any kind other than [transcript], [assistant_response] and
    [audio] ([error] among them). *)
Inductive discarded_by_vapi : option value -> Prop :=
| vapi_not_JSON : discarded_by_vapi None
| vapi_null : discarded_by_vapi (Some VNull)
| vapi_transcript_without_string response text :
    get response "type" = Normal (str "transcript") ->
    get response "text" = Normal text ->
    (forall t, text <> VString t) ->
    discarded_by_vapi (Some response)
| vapi_other_kind response type :
    get response "type" = Normal type ->
    is_string type "transcript" = false ->
    is_string type "assistant_response" = false ->
    is_string type "audio" = false ->
    discarded_by_vapi (Some response).

(** X12: an upstream message of one of these kinds leaves the whole
    process as it was. *)
Theorem upstream_discards (σ : state) (c : nat) (k : connection)
    (s : session) (data : option value) :
  connections σ !! c = Some k ->
  store σ !! session_ref k = Some s ->
  vapiWs_readyState k = OPEN \/ vapiWs_readyState k = CLOSING ->
  discarded_by_vapi data ->
  step (VapiMessage c data) σ = Some σ.
Proof.
  intros Hk Hs Hready Hd. unfold step, readyState_is. rewrite Hk.
  rewrite bool_decide_eq_true_2 by (destruct Hready as [-> | ->]; set_solver).
  f_equal. apply (with_connection_unchanged c _ σ k s Hk Hs).
  unfold on_vapi_message, vapi_message_body.
  destruct Hd as [| |response text Htype Htext Hns|response type Htype H1 H2 H3];
    simpl; try reflexivity.
  - rewrite Htype. simpl. rewrite Htext. simpl.
    destruct text; try reflexivity. now destruct (Hns s0).
  - rewrite Htype. simpl. now rewrite H1, H2, H3.
Qed.

Lemma upstream_discards_witness :
  step (VapiMessage 0 (Some (obj [("type", str "error"); ("message", str "boom")])))
    streaming = Some streaming /\
  step (VapiMessage 0 (Some (obj [("type", str "transcript"); ("text", VNull)])))
    streaming = Some streaming.
Proof.
  split;
    apply (upstream_discards streaming 0
             (on_vapi_open (set_readyState OPEN closure0)) session0);
    try reflexivity; try (left; reflexivity).
  - now apply (vapi_other_kind _ (str "error")).
  - apply (vapi_transcript_without_string _ VNull); try reflexivity. discriminate.
Defined.

(** ** What goes out on the two sockets *)

Lemma audioDelta_event (sid chunk : value) :
  get (audioDelta sid chunk) "event" = Normal (str "media").
Proof. reflexivity. Qed.

(** An event sends nothing downstream, or one [media] message. *)
Lemma moved_downstream (e : event) (k : connection) (s : session) :
  socket_sent (fst (moved e (k, s))) = socket_sent k \/
  exists sid chunk,
    socket_sent (fst (moved e (k, s))) = socket_sent k ++ [audioDelta sid chunk].
Proof.
  destruct e as [| | |? data| | |? message|]; simpl; try tauto.
  - unfold on_vapi_message.
    destruct (vapi_message_body data (k, s)) as [[k' s']|] eqn:E;
      simpl; [|tauto].
    unfold vapi_message_body in E. simpl in E.
    destruct (JSON_parse data) as [response|]; simpl in E; [|discriminate].
    destruct (get response "type") as [type|]; simpl in E; [|discriminate].
    step_through E; simpl; eauto.
  - unfold on_socket_message.
    destruct (socket_message_body message (k, s)) as [[k' s']|] eqn:E;
      simpl; [|tauto].
    unfold socket_message_body in E. simpl in E.
    destruct (JSON_parse message) as [data|]; simpl in E; [|discriminate].
    destruct (get data "event") as [event|]; simpl in E; [|discriminate].
    step_through E; simpl; tauto.
  - destruct (bool_decide _); simpl; tauto.
Qed.

Definition media_only (σ : state) : Prop :=
  forall c k, connections σ !! c = Some k ->
    Forall (fun m => exists sid chunk, m = audioDelta sid chunk) (socket_sent k).

Lemma media_only_step (e : event) (σ σ' : state) :
  well_formed σ -> media_only σ -> step e σ = Some σ' -> media_only σ'.
Proof.
  intros Hwf IH Hstep c k' Hk'.
  destruct (on_connection e) as [c0|] eqn:Hc.
  - destruct (step_on_connection e c0 σ σ' Hc Hstep) as (k0 & Hk0 & Hupd).
    destruct (wf_refs σ Hwf c0 k0 Hk0) as [s0 Hs0].
    rewrite (Hupd s0 Hs0) in Hk'.
    apply updated_connection in Hk' as [[-> ->]|[_ Hk']]; [|now apply (IH c)].
    destruct (moved_downstream e k0 s0) as [->|(sid & chunk & ->)].
    + now apply (IH c0).
    + apply Forall_app. split; [now apply (IH c0)|].
      constructor; [eauto|constructor].
  - destruct e; try discriminate Hc; simpl in Hstep; injection Hstep as <-.
    + destruct (incoming_call_frame body query σ) as (_ & _ & E & _).
      rewrite E in Hk'. now apply (IH c).
    + destruct (media_stream_connections header now σ) as (k0 & E & _ & _ & Hsent).
      rewrite E in Hk'. apply lookup_snoc_Some in Hk' as [[_ Hk']|[_ <-]].
      * now apply (IH c).
      * rewrite Hsent. constructor.
Qed.

(** X13: whatever happens, the only messages the relay sends to the
    telephony peer are [media] events built from an upstream audio chunk;
    no error, transcript or other message ever goes downstream. *)
Theorem downstream_gets_media_only (events : list event) (σ : state)
    (c : nat) (k : connection) :
  run events initial = Some σ ->
  connections σ !! c = Some k ->
  Forall (fun m => (exists sid chunk, m = audioDelta sid chunk) /\
                   get m "event" = Normal (str "media"))
    (socket_sent k).
Proof.
  intros Hrun Hk.
  assert (H : well_formed σ /\ media_only σ).
  { refine (run_invariant (fun σ => well_formed σ /\ media_only σ) initial
              _ _ events σ Hrun).
    - split; [apply well_formed_initial|]. intros c' k'. discriminate.
    - intros e σ1 σ2 [Hwf Hm] Hstep. split.
      + now apply (well_formed_step e σ1).
      + now apply (media_only_step e σ1). }
  destruct H as [_ H]. eapply List.Forall_impl; [|apply (H c k Hk)].
  intros m (sid & chunk & ->). split; [eauto|apply audioDelta_event].
Qed.

Lemma downstream_gets_media_only_witness :
  Forall (fun m => (exists sid chunk, m = audioDelta sid chunk) /\
                   get m "event" = Normal (str "media"))
    (socket_sent
       (socket_send (audioDelta VNull (str "xyz"))
          (on_vapi_open (set_readyState OPEN closure0)))).
Proof.
  apply (downstream_gets_media_only
           [MediaStream (Some (lit "CA1")) 0; VapiOpen 0;
            VapiMessage 0 (Some (obj [("type", str "audio"); ("chunk", str "xyz")]))]
           (set_connection 0
              (socket_send (audioDelta VNull (str "xyz"))
                 (on_vapi_open (set_readyState OPEN closure0))) streaming) 0).
  - vm_compute. reflexivity.
  - reflexivity.
Defined.

(** The upstream socket is closing or closed. *)
Definition winding_down (k : connection) : Prop :=
  vapiWs_readyState k = CLOSING \/ vapiWs_readyState k = CLOSED.

Lemma winding_down_step (e : event) (σ σ' : state) (c : nat) (k : connection) :
  well_formed σ ->
  connections σ !! c = Some k ->
  winding_down k ->
  step e σ = Some σ' ->
  exists k', connections σ' !! c = Some k' /\
             vapiWs_sent k' = vapiWs_sent k /\ winding_down k'.
Proof.
  intros Hwf Hk Hdown Hstep.
  destruct (on_connection e) as [c0|] eqn:Hc.
  - destruct (step_on_connection e c0 σ σ' Hc Hstep) as (k0 & Hk0 & Hupd).
    destruct (wf_refs σ Hwf c0 k0 Hk0) as [s0 Hs0]. rewrite (Hupd s0 Hs0). simpl.
    destruct (decide (c = c0)) as [->|Hne].
    + assert (k0 = k) as -> by congruence.
      rewrite list_lookup_insert_eq by now apply lookup_lt_Some in Hk.
      eexists. split; [reflexivity|].
      destruct (open_or_not e) as [[c' ->]|Hother].
      * injection Hc as ->.
        pose proof (step_open_enabled c0 σ σ' k Hstep Hk) as Hconn.
        destruct Hdown as [H|H]; congruence.
      * destruct (moved_upstream e k s0 Hother) as [Hready Hsent]. split.
        -- destruct Hsent as [->|[Hopen _]]; [reflexivity|].
           destruct Hdown as [H|H]; congruence.
        -- unfold winding_down.
           destruct Hready as [->|[->| ->]]; [assumption|tauto..].
    + rewrite list_lookup_insert_ne by congruence. eauto.
  - destruct e; try discriminate Hc; simpl in Hstep; injection Hstep as <-.
    + destruct (incoming_call_frame body query σ) as (_ & _ & -> & _). eauto.
    + destruct (media_stream_connections header now σ) as (k0 & -> & _).
      exists k. split; [now apply lookup_app_l_Some|tauto].
Qed.

(** X14: there is no reconnection.  Once the upstream socket of a
    connection is closing or closed, it stays so and nothing more is ever
    sent on it, whatever happens afterwards: downstream audio is dropped
    for the rest of the call. *)
Theorem upstream_never_resumes (before after : list event) (σ0 σ : state)
    (c : nat) (k0 : connection) :
  run before initial = Some σ0 ->
  connections σ0 !! c = Some k0 ->
  winding_down k0 ->
  run after σ0 = Some σ ->
  exists k, connections σ !! c = Some k /\
            vapiWs_sent k = vapiWs_sent k0 /\ winding_down k.
Proof.
  intros Hbefore. pose proof (well_formed_run _ _ Hbefore) as Hwf. clear Hbefore.
  revert σ0 k0 Hwf. induction after as [|e after IH];
    intros σ0 k0 Hwf Hk0 Hdown Hrun; simpl in Hrun.
  - injection Hrun as <-. eauto.
  - destruct (step e σ0) as [σ1|] eqn:E; [|discriminate].
    destruct (winding_down_step e σ0 σ1 c k0 Hwf Hk0 Hdown E) as (k1 & Hk1 & Hs1 & Hd1).
    destruct (IH σ1 k1 (well_formed_step e σ0 σ1 Hwf E) Hk1 Hd1 Hrun)
      as (k & Hk & Hs & Hd).
    exists k. split; [assumption|]. split; [congruence|assumption].
Qed.

Lemma upstream_never_resumes_witness :
  exists k,
    connections (socket_close 0 streaming) !! 0%nat = Some k /\
    vapiWs_sent k = [sessionUpdate] /\ winding_down k.
Proof.
  apply (upstream_never_resumes
           [MediaStream (Some (lit "CA1")) 0; VapiOpen 0; SocketClose 0]
           [SocketMessage 0 (Some (media_event (str "abc")))]
           (socket_close 0 streaming) (socket_close 0 streaming) 0
           (set_readyState CLOSING (on_vapi_open (set_readyState OPEN closure0)))).
  - vm_compute. reflexivity.
  - vm_compute. reflexivity.
  - left. reflexivity.
  - vm_compute. reflexivity.
Defined.

(** X15: the close handler closes the upstream socket only when it is
    open.  When the telephony peer hangs up while the upstream socket is
    still connecting, the socket is left alone: it can still open, and it
    is then configured for a session that is no longer registered. *)
Theorem close_while_connecting (σ : state) (c : nat) (k : connection) (s : session) :
  connections σ !! c = Some k ->
  store σ !! session_ref k = Some s ->
  vapiWs_readyState k = CONNECTING ->
  connections (socket_close c σ) !! c = Some k /\
  exists σ',
    step (VapiOpen c) (socket_close c σ) = Some σ' /\
    connections σ' !! c = Some (vapiWs_send sessionUpdate (set_readyState OPEN k)) /\
    sessions σ' !! sessionId k = None.
Proof.
  intros Hk Hs Hconn.
  assert (Hclose : on_socket_close (k, s) =
            (k, {| transcript := cleanTranscript (transcript s);
                   streamSid := streamSid s |})).
  { unfold on_socket_close. rewrite Hconn. reflexivity. }
  rewrite (socket_close_eq σ c k s Hk Hs), Hclose.
  assert (Hlen : (c < length (connections σ))%nat) by now apply lookup_lt_Some in Hk.
  assert (Hk' : connections
                  (updated c (session_ref k)
                     (k, {| transcript := cleanTranscript (transcript s);
                            streamSid := streamSid s |})
                     (delete (sessionId k) (sessions σ)) σ) !! c = Some k).
  { simpl. now apply list_lookup_insert_eq. }
  split; [exact Hk'|].
  eexists. split.
  - unfold step, readyState_is. rewrite Hk'.
    rewrite bool_decide_eq_true_2 by (rewrite Hconn; set_solver).
    reflexivity.
  - unfold with_connection. rewrite Hk'. simpl.
    rewrite list_lookup_insert_eq by now apply lookup_lt_Some in Hs.
    simpl. split.
    + apply list_lookup_insert_eq. now rewrite length_insert.
    + apply lookup_delete_eq.
Qed.

Lemma close_while_connecting_witness :
  connections (socket_close 0 connecting) !! 0%nat = Some closure0.
Proof.
  apply (proj1 (close_while_connecting connecting 0 closure0 session0
                  eq_refl eq_refl eq_refl)).
Defined.

(** ** The shape of the transcript *)

(** A text made of complete lines: it is empty or ends in a line feed. *)
Definition complete_lines (T : jsstring) : Prop :=
  exists before, split LF T = before ++ [[]].

(** Apart from the close handler, an event leaves the transcript as it is
    or appends one piece of text and a line feed. *)
Lemma moved_transcript (e : event) (k : connection) (s : session) :
  (forall c, e <> SocketClose c) ->
  transcript (snd (moved e (k, s))) = transcript s \/
  exists text, transcript (snd (moved e (k, s))) = transcript s ++ text ++ [LF].
Proof.
  intros Hne.
  destruct e as [| | |? data| | |? message|c]; simpl; try tauto.
  - unfold on_vapi_message.
    destruct (vapi_message_body data (k, s)) as [[k' s']|] eqn:E;
      simpl; [|tauto].
    unfold vapi_message_body in E. simpl in E.
    destruct (JSON_parse data) as [response|]; simpl in E; [|discriminate].
    destruct (get response "type") as [type|]; simpl in E; [|discriminate].
    step_through E; simpl; try tauto.
    + right.
      match goal with H : call_trim _ = Normal ?u |- _ => exists (user_prefix ++ u) end.
      rewrite <- List.app_assoc. reflexivity.
    + right.
      match goal with H : ToString _ = Normal ?u |- _ => exists (agent_prefix ++ u) end.
      rewrite <- List.app_assoc. reflexivity.
  - unfold on_socket_message.
    destruct (socket_message_body message (k, s)) as [[k' s']|] eqn:E;
      simpl; [|tauto].
    unfold socket_message_body in E. simpl in E.
    destruct (JSON_parse message) as [data|]; simpl in E; [|discriminate].
    destruct (get data "event") as [event|]; simpl in E; [|discriminate].
    step_through E; simpl; tauto.
  - now destruct (Hne c).
Qed.

Lemma complete_lines_append (T text : jsstring) : complete_lines (T ++ text ++ [LF]).
Proof.
  exists (split LF (T ++ text)).
  replace (T ++ text ++ [LF]) with ((T ++ text) ++ LF :: [])
    by now rewrite <- List.app_assoc.
  now rewrite split_app_sep.
Qed.

Lemma complete_lines_step (e : event) (σ σ' : state) :
  well_formed σ ->
  Forall (fun s => complete_lines (transcript s)) (store σ) ->
  (forall c, e <> SocketClose c) ->
  step e σ = Some σ' ->
  Forall (fun s => complete_lines (transcript s)) (store σ').
Proof.
  intros Hwf IH Hne Hstep.
  destruct (on_connection e) as [c|] eqn:Hc.
  - destruct (step_on_connection e c σ σ' Hc Hstep) as (k & Hk & Hupd).
    destruct (wf_refs σ Hwf c k Hk) as [s Hs]. rewrite (Hupd s Hs). simpl.
    apply Forall_insert; [assumption|].
    destruct (moved_transcript e k s Hne) as [->|[text ->]].
    + now apply (Forall_lookup_1 _ _ _ _ IH Hs).
    + apply complete_lines_append.
  - destruct e; try discriminate Hc; simpl in Hstep; injection Hstep as <-.
    + now destruct (incoming_call_frame body query σ) as (_ & -> & _).
    + unfold media_stream.
      destruct (sessions σ !! new_sessionId header now); simpl; [assumption|].
      apply Forall_app. split; [assumption|].
      constructor; [now exists []|constructor].
Qed.

(** X16: until a close handler runs, every transcript is made of complete
    lines: it is empty or ends in a line feed, so each event adds whole
    lines to it. *)
Theorem transcripts_made_of_complete_lines (events : list event) (σ : state)
    (r : nat) (s : session) :
  run events initial = Some σ ->
  (forall c, ~ In (SocketClose c) events) ->
  store σ !! r = Some s ->
  transcript s = [] \/ exists front, transcript s = front ++ [LF].
Proof.
  intros Hrun Hnone Hs.
  assert (H : Forall (fun s => complete_lines (transcript s)) (store σ)).
  { assert (Hgen : forall σ0,
              well_formed σ0 ->
              Forall (fun s => complete_lines (transcript s)) (store σ0) ->
              run events σ0 = Some σ ->
              Forall (fun s => complete_lines (transcript s)) (store σ)).
    { clear Hrun. induction events as [|e events IH];
        intros σ0 Hwf H0 Hrun; simpl in Hrun.
      - now injection Hrun as <-.
      - destruct (step e σ0) as [σ1|] eqn:E; [|discriminate].
        apply (IH (fun c H => Hnone c (or_intror H)) σ1); try assumption.
        + now apply (well_formed_step e σ0).
        + apply (complete_lines_step e σ0); try assumption.
          intros c ->. apply (Hnone c). now left. }
    apply (Hgen initial); [apply well_formed_initial|constructor|assumption]. }
  destruct (Forall_lookup_1 _ _ _ _ H Hs) as [before Hb].
  destruct (transcript s) as [|x T] using rev_ind; [now left|].
  right. exists T. f_equal.
  destruct (Z.eqb_spec x LF) as [->|Hx]; [reflexivity|].
  exfalso.
  destruct (split_app_without_sep LF T [x]) as (pieces & piece & _ & Hsplit).
  { simpl. intros [H'|[]]. congruence. }
  rewrite Hsplit in Hb. apply app_inj_tail in Hb as [_ Hb].
  now destruct piece.
Qed.

Lemma transcripts_made_of_complete_lines_witness :
  user_prefix ++ lit "hello" ++ [LF] = [] \/
  exists front, user_prefix ++ lit "hello" ++ [LF] = front ++ [LF].
Proof.
  apply (transcripts_made_of_complete_lines
           [MediaStream (Some (lit "CA1")) 0; VapiOpen 0;
            VapiMessage 0 (Some (obj [("type", str "transcript"); ("text", str " hello ")]))]
           (set_session 0 {| transcript := user_prefix ++ lit "hello" ++ [LF];
                             streamSid := VNull |} streaming)
           0 {| transcript := user_prefix ++ lit "hello" ++ [LF]; streamSid := VNull |}).
  - vm_compute. reflexivity.
  - intros c [H|[H|[H|[]]]]; discriminate H.
  - reflexivity.
Defined.

(** ** Looking a session up, or creating it *)

(** X17: a new connection looks its session up before creating one.  For a
    call identifier that is registered it takes the registered session
    object, allocates nothing and leaves the registry as it is; for one that
    is not, it registers a new object with an empty transcript and no
    stream identifier, which no connection made before refers to. *)
Theorem lookup_or_create (events : list event) (σ : state)
    (header : option jsstring) (now : N) :
  run events initial = Some σ ->
  exists k,
    connections (media_stream header now σ) = connections σ ++ [k] /\
    sessionId k = new_sessionId header now /\
    sessions (media_stream header now σ) !! new_sessionId header now =
      Some (session_ref k) /\
    match sessions σ !! new_sessionId header now with
    | Some r =>
        session_ref k = r /\
        store (media_stream header now σ) = store σ /\
        sessions (media_stream header now σ) = sessions σ
    | None =>
        store (media_stream header now σ) =
          store σ ++ [{| transcript := []; streamSid := VNull |}] /\
        session_ref k = length (store σ) /\
        forall c k0, connections σ !! c = Some k0 -> session_ref k0 <> session_ref k
    end.
Proof.
  intros Hrun. pose proof (well_formed_run _ _ Hrun) as Hwf.
  unfold media_stream.
  destruct (sessions σ !! new_sessionId header now) as [r|] eqn:E; simpl.
  - eexists. split; [reflexivity|]. simpl. split; [reflexivity|].
    split; [apply lookup_insert_eq|]. split; [reflexivity|].
    split; [reflexivity|]. now apply insert_id.
  - eexists. split; [reflexivity|]. simpl. split; [reflexivity|].
    split; [apply lookup_insert_eq|]. split; [reflexivity|].
    split; [reflexivity|]. intros c k0 Hk0 Heq.
    destruct (wf_refs σ Hwf c k0 Hk0) as [s Hs].
    apply lookup_lt_Some in Hs. lia.
Qed.

Lemma lookup_or_create_witness :
  exists k,
    connections (media_stream (Some (lit "CA1")) 7 connecting) =
      connections connecting ++ [k] /\
    session_ref k = 0%nat /\
    store (media_stream (Some (lit "CA1")) 7 connecting) = store connecting.
Proof.
  destruct (lookup_or_create [MediaStream (Some (lit "CA1")) 0] connecting
              (Some (lit "CA1")) 7 eq_refl) as (k & Hk & _ & _ & H).
  exists k. split; [exact Hk|].
  change (sessions connecting !! new_sessionId (Some (lit "CA1")) 7)
    with (Some 0%nat) in H.
  destruct H as (Hr & Hs & _). now split.
Defined.

(** X18: after the close handler of a connection has run, a new connection
    with the same call identifier does not continue the old session: it
    gets a new, empty session object, and the old one keeps its cleaned
    transcript. *)
Theorem reconnect_after_close_starts_afresh (events : list event) (σ : state)
    (c : nat) (k : connection) (s : session) (header : option jsstring) (now : N) :
  run events initial = Some σ ->
  connections σ !! c = Some k ->
  store σ !! session_ref k = Some s ->
  new_sessionId header now = sessionId k ->
  let σ' := media_stream header now (socket_close c σ) in
  exists k',
    connections σ' !! length (connections σ) = Some k' /\
    sessionId k' = sessionId k /\
    session_ref k' = length (store σ) /\
    session_ref k' <> session_ref k /\
    store σ' !! session_ref k' = Some {| transcript := []; streamSid := VNull |} /\
    store σ' !! session_ref k =
      Some {| transcript := cleanTranscript (transcript s); streamSid := streamSid s |}.
Proof.
  intros Hrun Hk Hs Hid σ'. subst σ'.
  rewrite (socket_close_eq σ c k s Hk Hs).
  unfold media_stream. rewrite Hid. simpl sessions.
  rewrite lookup_delete_eq. simpl.
  assert (Hlt : (session_ref k < length (store σ))%nat) by now apply lookup_lt_Some in Hs.
  eexists. split.
  - rewrite lookup_app_r by now rewrite length_insert.
    rewrite length_insert, Nat.sub_diag. reflexivity.
  - simpl. rewrite length_insert. split; [reflexivity|]. split; [reflexivity|].
    split; [lia|]. split.
    + rewrite lookup_app_r by now rewrite length_insert.
      rewrite length_insert, Nat.sub_diag. reflexivity.
    + rewrite lookup_app_l by now rewrite length_insert.
      now apply list_lookup_insert_eq.
Qed.

Lemma reconnect_after_close_starts_afresh_witness :
  exists k',
    connections (media_stream (Some (lit "CA1")) 9 (socket_close 0 streaming)) !! 1%nat =
      Some k' /\
    session_ref k' = 1%nat.
Proof.
  destruct (reconnect_after_close_starts_afresh
              [MediaStream (Some (lit "CA1")) 0; VapiOpen 0] streaming 0
              (on_vapi_open (set_readyState OPEN closure0)) session0
              (Some (lit "CA1")) 9)
    as (k' & Hk' & _ & Hr & _);
    [vm_compute; reflexivity|reflexivity|reflexivity|reflexivity|].
  exists k'. split; [exact Hk'|exact Hr].
Defined.

Lemma lit_inj (a b : string) : lit a = lit b -> a = b.
Proof.
  revert b. induction a as [|x a IH]; intros [|y b] H; try discriminate H.
  - reflexivity.
  - unfold lit in H. simpl in H. injection H as Hxy Hab.
    apply N2Z.inj in Hxy.
    assert (x = y) as ->.
    { rewrite <- (ascii_N_embedding x), <- (ascii_N_embedding y). now rewrite Hxy. }
    f_equal. now apply IH.
Qed.

(** X19: without an [x-twilio-call-sid] header (or with an empty one) the
    session identifier is made from the clock: two such connections get the
    same identifier exactly when they arrive in the same millisecond, and
    then the second one shares the session object of the first. *)
Theorem fallback_sessionId (now1 now2 : N) (σ : state) :
  (new_sessionId None now1 = new_sessionId None now2 <-> now1 = now2) /\
  new_sessionId (Some []) now1 = new_sessionId None now1 /\
  exists k1 k2,
    connections (media_stream None now1 (media_stream None now1 σ)) =
      connections σ ++ [k1; k2] /\
    sessionId k1 = sessionId k2 /\ session_ref k1 = session_ref k2.
Proof.
  split; [|split].
  - split; [|now intros ->]. unfold new_sessionId. intros H.
    apply app_inv_head in H. apply lit_inj in H. now apply (inj pretty) in H.
  - reflexivity.
  - unfold media_stream at 1.
    assert (Hreg : exists k1,
              connections (media_stream None now1 σ) = connections σ ++ [k1] /\
              sessionId k1 = new_sessionId None now1 /\
              sessions (media_stream None now1 σ) !! new_sessionId None now1 =
                Some (session_ref k1)).
    { unfold media_stream.
      destruct (sessions σ !! new_sessionId None now1); simpl;
        (eexists; split; [reflexivity|]; split; [reflexivity|]; apply lookup_insert_eq). }
    destruct Hreg as (k1 & Hc & Hid & Hr). rewrite Hr. simpl. rewrite Hc.
    eexists k1, _. rewrite <- List.app_assoc. split; [reflexivity|].
    simpl. now split.
Qed.

(** ** The call set-up route and the sessions *)

(** The state of the process with the two process-wide variables replaced. *)
Definition set_caller (number sid : value) (σ : state) : state :=
  {| callerNumber := number;
     callSid := sid;
     sessions := sessions σ;
     store := store σ;
     connections := connections σ;
     fetched := fetched σ |}.

Definition is_incoming_call (e : event) : bool :=
  match e with IncomingCall _ _ => true | _ => false end.

Lemma incoming_call_set_caller (body query : value) (σ : state) :
  exists number sid, incoming_call body query σ = set_caller number sid σ.
Proof.
  unfold incoming_call.
  destruct (get (or_else body query) "From") as [From|]; simpl.
  - destruct (get (or_else body query) "CallSid") as [CallSid|]; simpl.
    + now eexists _, _.
    + exists (callerNumber σ), (callSid σ). now destruct σ.
  - exists (callerNumber σ), (callSid σ). now destruct σ.
Qed.

(** The events of the media stream neither read nor write the two
    variables. *)
Lemma step_set_caller (e : event) (number sid : value) (σ : state) :
  is_incoming_call e = false ->
  step e (set_caller number sid σ) =
  match step e σ with
  | Some σ' => Some (set_caller number sid σ')
  | None => None
  end.
Proof.
  intros He. destruct e; try discriminate He; simpl;
    unfold readyState_is, socket_close, with_connection, media_stream; simpl;
    repeat case_match; reflexivity.
Qed.

Lemma run_set_caller (events : list event) (number sid : value) (σ0 σ : state) :
  run events (set_caller number sid σ0) = Some σ ->
  exists σ' number' sid',
    run (List.filter (fun e => negb (is_incoming_call e)) events) σ0 = Some σ' /\
    σ = set_caller number' sid' σ'.
Proof.
  revert number sid σ0. induction events as [|e events IH];
    intros number sid σ0 Hrun; simpl in Hrun.
  - injection Hrun as <-. now exists σ0, number, sid.
  - destruct (is_incoming_call e) eqn:He.
    + destruct e; try discriminate He. simpl in Hrun.
      destruct (incoming_call_set_caller body query (set_caller number sid σ0))
        as (number' & sid' & E).
      rewrite E in Hrun. simpl. now apply (IH number' sid' σ0).
    + rewrite (step_set_caller e number sid σ0 He) in Hrun.
      simpl. rewrite He. simpl.
      destruct (step e σ0) as [σ1|]; [|discriminate].
      now apply (IH number sid σ1).
Qed.

(** X20: the call set-up route has no influence on the media streams.  A
    run with its [/incoming-call] requests left out leads to the same
    registry, session objects, connections and requests: the caller number
    and the call identifier the route records are never read. *)
Theorem sessions_independent_of_call_setup (events : list event) (σ : state) :
  run events initial = Some σ ->
  exists σ',
    run (List.filter (fun e => negb (is_incoming_call e)) events) initial = Some σ' /\
    sessions σ' = sessions σ /\
    store σ' = store σ /\
    connections σ' = connections σ /\
    fetched σ' = fetched σ.
Proof.
  intros Hrun.
  destruct (run_set_caller events VNull VNull initial σ Hrun)
    as (σ' & number & sid & Hrun' & ->).
  exists σ'. now repeat split.
Qed.

Lemma sessions_independent_of_call_setup_witness :
  exists σ',
    run [MediaStream (Some (lit "CA1")) 0] initial = Some σ' /\
    sessions σ' = sessions connecting.
Proof.
  destruct (sessions_independent_of_call_setup
              [IncomingCall (obj [("From", str "+15550001"); ("CallSid", str "CA1")]) (obj []);
               MediaStream (Some (lit "CA1")) 0]
              (set_caller (str "+15550001") (str "CA1") connecting))
    as (σ' & Hrun & Hs & _); [vm_compute; reflexivity|].
  exists σ'. split; [exact Hrun|exact Hs].
Defined.

(** X21: in every state the process reaches, a registered session is
    live: its object is in the store, and some connection made for that
    call identifier holds it. *)
Theorem registered_sessions_live (events : list event) (σ : state)
    (id : jsstring) (r : nat) :
  run events initial = Some σ ->
  sessions σ !! id = Some r ->
  exists s c k,
    store σ !! r = Some s /\
    connections σ !! c = Some k /\ sessionId k = id /\ session_ref k = r.
Proof.
  intros Hrun Hid. pose proof (well_formed_run _ _ Hrun) as Hwf.
  destruct (wf_registered σ Hwf id r Hid) as (c & k & Hk & Hkid & Hr).
  destruct (wf_refs σ Hwf c k Hk) as [s Hs].
  exists s, c, k. rewrite <- Hr. now repeat split.
Qed.

Lemma registered_sessions_live_witness :
  exists s c k,
    store connecting !! 0%nat = Some s /\
    connections connecting !! c = Some k /\
    sessionId k = lit "CA1" /\ session_ref k = 0%nat.
Proof.
  apply (registered_sessions_live [MediaStream (Some (lit "CA1")) 0] connecting
           (lit "CA1") 0 eq_refl).
  vm_compute. reflexivity.
Defined.

(** ** Events after the close handler *)

Lemma blank_separated_snoc (pieces : list jsstring) (piece : jsstring) :
  exists front, blank_separated (pieces ++ [piece]) = front ++ [piece].
Proof.
  induction pieces as [|p [|q rest] IH].
  - now exists [].
  - now exists [p; []].
  - destruct IH as [front IH].
    exists (p :: [] :: front).
    change (blank_separated ((p :: q :: rest) ++ [piece]))
      with (p :: [] :: blank_separated ((q :: rest) ++ [piece])).
    now rewrite IH.
Qed.

(** X22: the close handler does not stop the upstream handler.  A
    [transcript] event that arrives after it is still appended to the
    session object, and as the cleaned transcript does not end in a line
    feed, the new text is glued to the last kept line. *)
Theorem late_transcript_joins_last_line (response : value) (t : jsstring)
    (k : connection) (s : session) (lines : list jsstring) (last : jsstring) :
  get response "type" = Normal (str "transcript") ->
  get response "text" = Normal (VString t) ->
  ~ In LF (trim t) ->
  List.filter kept (split LF (transcript s)) = lines ++ [last] ->
  let after := snd (on_vapi_message (Some response) (on_socket_close (k, s))) in
  transcript after =
    cleanTranscript (transcript s) ++ user_prefix ++ trim t ++ [LF] /\
  exists front,
    split LF (cleanTranscript (transcript s)) = front ++ [last] /\
    split LF (transcript after) = front ++ [last ++ user_prefix ++ trim t; []].
Proof.
  intros Htype Htext Hlf Hkept after.
  assert (Hafter : transcript after =
            cleanTranscript (transcript s) ++ user_prefix ++ trim t ++ [LF]).
  { subst after. unfold on_socket_close, on_vapi_message, vapi_message_body. simpl.
    rewrite Htype. simpl. rewrite Htext. reflexivity. }
  split; [exact Hafter|].
  assert (Hsplit : split LF (cleanTranscript (transcript s)) =
                   blank_separated (lines ++ [last])).
  { rewrite cleanTranscript_join, <- Hkept.
    apply split_join, kept_lines_without_LF. }
  destruct (blank_separated_snoc lines last) as [front Hfront].
  exists front. rewrite Hsplit, Hfront. split; [reflexivity|].
  assert (Hline : ~ In LF (user_prefix ++ trim t)).
  { rewrite List.in_app_iff. destruct prefixes_without_LF. tauto. }
  destruct (split_app_without_sep LF (cleanTranscript (transcript s)) _ Hline)
    as (pieces & piece & Hs & Hs').
  rewrite Hsplit, Hfront in Hs. apply app_inj_tail in Hs as [? ?]. subst.
  rewrite Hafter.
  replace (cleanTranscript (transcript s) ++ user_prefix ++ trim t ++ [LF])
    with ((cleanTranscript (transcript s) ++ user_prefix ++ trim t) ++ LF :: [])
    by now rewrite <- !List.app_assoc.
  rewrite split_app_sep, Hs'. simpl. now rewrite <- List.app_assoc.
Qed.

Lemma late_transcript_joins_last_line_witness :
  exists front,
    split LF (cleanTranscript (user_prefix ++ lit "hello" ++ [LF])) =
      front ++ [user_prefix ++ lit "hello"] /\
    split LF
      (transcript
         (snd (on_vapi_message
                 (Some (obj [("type", str "transcript"); ("text", str " bye ")]))
                 (on_socket_close
                    (closure0, {| transcript := user_prefix ++ lit "hello" ++ [LF];
                                  streamSid := VNull |}))))) =
      front ++ [(user_prefix ++ lit "hello") ++ user_prefix ++ trim (lit " bye "); []].
Proof.
  apply (proj2 (late_transcript_joins_last_line
                  (obj [("type", str "transcript"); ("text", str " bye ")])
                  (lit " bye ") closure0
                  {| transcript := user_prefix ++ lit "hello" ++ [LF]; streamSid := VNull |}
                  [] (user_prefix ++ lit "hello") eq_refl eq_refl
                  ltac:(vm_compute; intuition discriminate) eq_refl)).
Defined.
